(** * Lyapunov trajectory-tracking controller for a unicycle robot

    Shallow embedding of [lyapunovController.cpp] (class [LyapController])
    and the properties of its specification.

    Conventions of the embedding.
    - A C++ [double] is read as a real number ([R]).  Where a double decides
      a discrete outcome, the rounding of the operation that produces it is
      written out ([double_round], binary64, round to nearest, ties to
      even): the quotient [t / dt] that [getIndexIntegerBasedOnTime] turns
      into an index, and the product of [computeMaxTime] that [endReached]
      compares the clock with.  Where a double is only carried along as a
      continuous value (tracking errors, commands, stored samples, the
      fraction of a step) the arithmetic is that of the reals.  Overflow to
      an infinity and NaN are left out; the one place where a non-finite
      double would arise from arithmetic on the class's own data, the
      division by a zero step time in [getIndexIntegerBasedOnTime], is kept
      apart (see there).
    - A C++ [int] is a [Z] in the range [INT_MIN .. INT_MAX]; the
      conversions that produce one ([size_t -> int], [double -> int]) are
      written out.
    - A member function that mutates the object is a function from the
      object to an [outcome] and the object afterwards; an exception leaves
      the object as it was when it was thrown. *)

From Stdlib Require Import Reals Lra Lia ZArith String Bool List.
Import ListNotations.

Open Scope R_scope.

(** ** Results of a call *)

(** [DESIRED_TRAJECTORY_INCOMPLETE] is the enum value thrown by
    [computeLaw]; [out_of_range] is [std::out_of_range], thrown by
    [std::vector::at]. *)
Inductive exception : Type :=
| DESIRED_TRAJECTORY_INCOMPLETE
| out_of_range.

(** A call returns normally, leaves by an exception, or runs into behaviour
    the language leaves undefined (a [double] outside the range of [int]
    converted to [int], signed overflow). *)
Inductive outcome (A : Type) : Type :=
| Normal (a : A)
| Throw (e : exception)
| Undefined.

Arguments Normal {A} a.
Arguments Throw {A} e.
Arguments Undefined {A}.

Definition obind {A B : Type} (o : outcome A) (k : A -> outcome B) : outcome B :=
  match o with
  | Normal a => k a
  | Throw e => Throw e
  | Undefined => Undefined
  end.

(** Computations over a store [St]. *)
Definition M (St A : Type) : Type := St -> outcome A * St.

Definition ret {St A : Type} (a : A) : M St A := fun s => (Normal a, s).

Definition bind {St A B : Type} (m : M St A) (k : A -> M St B) : M St B :=
  fun s =>
    match m s with
    | (Normal a, s') => k a s'
    | (Throw e, s') => (Throw e, s')
    | (Undefined, s') => (Undefined, s')
    end.

Definition throw {St A : Type} (e : exception) : M St A := fun s => (Throw e, s).
Definition get {St : Type} : M St St := fun s => (Normal s, s).
Definition modify {St : Type} (f : St -> St) : M St unit := fun s => (Normal tt, f s).

(** A [const] member function: reads the store, may throw. *)
Definition const_call {St A : Type} (f : St -> outcome A) : M St A :=
  fun s => (f s, s).

Declare Scope cpp_scope.
Delimit Scope cpp_scope with cpp.
Notation "x <- m ;; k" := (bind m (fun x => k))
  (at level 61, m at next level, right associativity) : cpp_scope.
Notation "m ;; k" := (bind m (fun _ => k))
  (at level 61, right associativity) : cpp_scope.
Notation "x <~ o ;; k" := (obind o (fun x => k))
  (at level 61, o at next level, right associativity) : cpp_scope.

(** [for (int i = 0; i < bound; i++) body(i)]: the body runs for
    [i = 0, 1, ..., bound - 1], so [Z.to_nat bound] times, and an exception
    ends the loop. *)
Fixpoint for_loop {St : Type} (count : nat) (i : Z) (body : Z -> M St unit) : M St unit :=
  match count with
  | O => ret tt
  | S k => bind (body i) (fun _ => for_loop k (i + 1)%Z body)
  end.

Definition for_int {St : Type} (bound : Z) (body : Z -> M St unit) : M St unit :=
  for_loop (Z.to_nat bound) 0%Z body.

(** ** Machine integers and library functions *)

Definition INT_MAX : Z := 2147483647.
Definition INT_MIN : Z := -2147483648.

(** [int(v.size())]: a size that fits is kept, a larger one is reduced
    modulo 2^32 into the range of [int]. *)
Definition int_of_size (n : nat) : Z :=
  let z := (Z.of_nat n mod 4294967296)%Z in
  if (z <=? INT_MAX)%Z then z else (z - 4294967296)%Z.

(** Integer part toward zero of a real. *)
Definition trunc (x : R) : Z :=
  if Rle_dec 0 x then Int_part x else (- Int_part (- x))%Z.

(** [double -> int]: truncation, undefined when the result is not an [int]. *)
Definition int_of_double (x : R) : outcome Z :=
  let z := trunc x in
  if ((INT_MIN <=? z) && (z <=? INT_MAX))%Z then Normal z else Undefined.

(** [n_max - 1] on [int]. *)
Definition int_pred (z : Z) : outcome Z :=
  if (INT_MIN <=? z - 1)%Z then Normal (z - 1)%Z else Undefined.

(** [round] of <cmath>: nearest integer, halfway cases away from zero. *)
Definition round (x : R) : R :=
  if Rle_dec 0 x then IZR (Int_part (x + / 2)) else - IZR (Int_part (- x + / 2)).

(** [atan2] of <cmath>: the angle of the point [(x, y)], in (-PI, PI]. *)
Definition atan2 (y x : R) : R :=
  if Rlt_dec 0 x then atan (y / x)
  else if Rlt_dec x 0 then
         if Rle_dec 0 y then atan (y / x) + PI else atan (y / x) - PI
       else if Rlt_dec 0 y then PI / 2
            else if Rlt_dec y 0 then - (PI / 2) else 0.

(** [std::vector::at]: the [int] index is converted to [size_t], so a
    negative one is never below the size. *)
Definition vector_at {A : Type} (l : list A) (i : Z) : outcome A :=
  if (i <? 0)%Z then Throw out_of_range
  else match nth_error l (Z.to_nat i) with
       | Some a => Normal a
       | None => Throw out_of_range
       end.

(** ** Arithmetic on [double] *)

(** The nearest integer to [x], halfway cases to the even one. *)
Definition Znearest_even (x : R) : Z :=
  let f := Int_part x in
  if Rlt_dec (x - IZR f) (/ 2) then f
  else if Rlt_dec (/ 2) (x - IZR f) then (f + 1)%Z
  else if Z.even f then f else (f + 1)%Z.

(** The binary exponent of a positive [x]: [2^(mag x) <= x < 2^(mag x + 1)]. *)
Definition mag (x : R) : Z := Int_part (ln x / ln 2).

(** The exponent of the last place of a binary64 number of the size of [x]:
    53 significant bits, and no exponent below -1074 (subnormal numbers). *)
Definition double_exponent (x : R) : Z := Z.max (mag x - 52) (-1074).

Definition round_positive (x : R) : R :=
  IZR (Znearest_even (x * powerRZ 2 (- double_exponent x)))
  * powerRZ 2 (double_exponent x).

(** The double nearest to the real [x] (IEEE 754 binary64, round to
    nearest, ties to even), for [x] within the range of the finite
    doubles. *)
Definition double_round (x : R) : R :=
  if Rlt_dec 0 x then round_positive x
  else if Rlt_dec x 0 then - round_positive (- x) else 0.

(** [x] is the value of a double. *)
Definition is_double (x : R) : Prop := double_round x = x.

(** [a / b] and [a * b] on doubles: the exact result, rounded. *)
Definition double_div (a b : R) : R := double_round (a / b).
Definition double_mul (a b : R) : R := double_round (a * b).

(** [double(v.size())]. *)
Definition double_of_size (n : nat) : R := double_round (INR n).

Arguments double_round : simpl never.
Arguments double_div : simpl never.
Arguments double_mul : simpl never.
Arguments double_of_size : simpl never.

(** ** Helpers declared outside the translated file *)

(** Modelled from the spec: [sinc], declared in a header that is not among
    the sources; "sinc(z) = sin(z)/z for z <> 0 and sinc(0) = 1". *)
Definition sinc (z : R) : R :=
  if Req_dec_T z 0 then 1 else sin z / z.

(** Least integer not below [r]. *)
Definition Rceil (r : R) : Z := (- Int_part (- r))%Z.

(** Modelled from the spec: [angleWithinPI] (the spec's wrapToPI), declared
    in a header that is not among the sources; it "maps any angle to
    (-PI, PI]", that is to the angle of that interval that differs from the
    argument by a whole number of turns. *)
Definition angleWithinPI (a : R) : R :=
  a - 2 * PI * IZR (Rceil ((a - PI) / (2 * PI))).

(** ** Data *)

(** [Eigen::Vector2d], a control input (v, omega). *)
Record Vector2d : Type := Vec2 { v2_0 : R; v2_1 : R }.

(** [Eigen::Vector3d], a pose (x, y, theta). *)
Record Vector3d : Type := Vec3 { v3_0 : R; v3_1 : R; v3_2 : R }.

Definition Vector2d_Zero : Vector2d := Vec2 0 0.
Definition Vector3d_Zero : Vector3d := Vec3 0 0 0.

Definition Vector2d_plus (a b : Vector2d) : Vector2d :=
  Vec2 (v2_0 a + v2_0 b) (v2_1 a + v2_1 b).

(** Modelled from the spec: [UnicycleModel], the kinematic model behind
    [RobotModel], is declared outside the sources; the spec gives its
    interface: "reset(pose), setControlInput(u), integrateOneStep(),
    getState() -> pose, getStepTime() -> dt", a fixed-step integrator whose
    numerical scheme is left open. *)
Record UnicycleModel : Type := mkUnicycleModel {
  model_state : Vector3d;
  model_input : Vector2d;
  model_dt : R
}.

Definition UnicycleModel_ctor (pose : Vector3d) (u : Vector2d) (dt : R) : UnicycleModel :=
  mkUnicycleModel pose u dt.

Definition getStepTime (m : UnicycleModel) : R := model_dt m.
Definition getState (m : UnicycleModel) : Vector3d := model_state m.
Definition resetState (pose : Vector3d) (m : UnicycleModel) : UnicycleModel :=
  mkUnicycleModel pose (model_input m) (model_dt m).
Definition setControlInput (u : Vector2d) (m : UnicycleModel) : UnicycleModel :=
  mkUnicycleModel (model_state m) u (model_dt m).

(** The members of [LyapController]. *)
Record LyapController : Type := mkLyapController {
  Kp : R;
  Ktheta : R;
  current_time : R;
  time_end : R;
  e_x : R;
  e_y : R;
  e_theta : R;
  RobotModel : UnicycleModel;
  finished : bool;
  u_desired : list Vector2d;
  pose_desired : list Vector3d;
  pose_offset : Vector3d
}.

Definition set_errors (ex ey eth : R) (c : LyapController) : LyapController :=
  mkLyapController (Kp c) (Ktheta c) (current_time c) (time_end c) ex ey eth
    (RobotModel c) (finished c) (u_desired c) (pose_desired c) (pose_offset c).

Definition set_time_end (t : R) (c : LyapController) : LyapController :=
  mkLyapController (Kp c) (Ktheta c) (current_time c) t (e_x c) (e_y c) (e_theta c)
    (RobotModel c) (finished c) (u_desired c) (pose_desired c) (pose_offset c).

Definition set_finished (b : bool) (c : LyapController) : LyapController :=
  mkLyapController (Kp c) (Ktheta c) (current_time c) (time_end c) (e_x c) (e_y c)
    (e_theta c) (RobotModel c) b (u_desired c) (pose_desired c) (pose_offset c).

Definition set_RobotModel (m : UnicycleModel) (c : LyapController) : LyapController :=
  mkLyapController (Kp c) (Ktheta c) (current_time c) (time_end c) (e_x c) (e_y c)
    (e_theta c) m (finished c) (u_desired c) (pose_desired c) (pose_offset c).

Definition set_u_desired (l : list Vector2d) (c : LyapController) : LyapController :=
  mkLyapController (Kp c) (Ktheta c) (current_time c) (time_end c) (e_x c) (e_y c)
    (e_theta c) (RobotModel c) (finished c) l (pose_desired c) (pose_offset c).

Definition set_pose_desired (l : list Vector3d) (c : LyapController) : LyapController :=
  mkLyapController (Kp c) (Ktheta c) (current_time c) (time_end c) (e_x c) (e_y c)
    (e_theta c) (RobotModel c) (finished c) (u_desired c) l (pose_offset c).

(** No function of the translated file writes [current_time]; the caller's
    clock does. *)
Definition set_current_time (t : R) (c : LyapController) : LyapController :=
  mkLyapController (Kp c) (Ktheta c) t (time_end c) (e_x c) (e_y c)
    (e_theta c) (RobotModel c) (finished c) (u_desired c) (pose_desired c) (pose_offset c).

(** The constructor.  [u_desired] and [pose_desired] start as empty
    vectors; [pose_offset] is not assigned by the constructor, so the value
    it starts with is an argument here. *)
Definition LyapController_ctor (Kp Ktheta dt : R) (offset0 : Vector3d) : LyapController :=
  mkLyapController Kp Ktheta 0 0 0 0 0
    (UnicycleModel_ctor Vector3d_Zero Vector2d_Zero dt)
    true [] [] offset0.

(** ** Member functions *)

(** What a call of [computeLaw] or [step] works on: the controller, the
    caller's output vector (passed by reference) and the lines written to
    [std::cout]. *)
Record Frame : Type := mkFrame {
  this : LyapController;
  u_out : Vector2d;
  cout : list string
}.

Definition on_this {A : Type} (m : M LyapController A) : M Frame A :=
  fun f =>
    let (o, c) := m (this f) in (o, mkFrame c (u_out f) (cout f)).

Definition assign_u_out (u : Vector2d) : M Frame unit :=
  modify (fun f => mkFrame (this f) u (cout f)).

Definition print_line (line : string) : M Frame unit :=
  modify (fun f => mkFrame (this f) (u_out f) (cout f ++ [line])).

(** The product is a double: the exact product of the step time and the
    converted size, rounded. *)
Definition computeMaxTime (c : LyapController) : R :=
  double_mul (getStepTime (RobotModel c)) (double_of_size (length (pose_desired c))).

(** A zero step time makes [t / dt] infinite or NaN, which has no [int]
    value; the reals have no such quotient, so the case is told apart
    before the division.  The quotient handed to [round] is the double
    quotient; [round] of a double is a double, so it adds no rounding. *)
Definition getIndexIntegerBasedOnTime (c : LyapController) (t : R) : outcome Z :=
  (let n_max := int_of_size (length (pose_desired c)) in
   if Req_dec_T (getStepTime (RobotModel c)) 0 then Undefined
   else
     index <~ int_of_double (round (double_div t (getStepTime (RobotModel c)))) ;;
     if (n_max <=? index)%Z then int_pred n_max else Normal index)%cpp.

Definition getControlInputDesiredOnTime (c : LyapController) (t : R) : outcome Vector2d :=
  (index <~ getIndexIntegerBasedOnTime c t ;;
   vector_at (u_desired c) index)%cpp.

Definition getPoseDesiredOnTime (c : LyapController) (t : R) : outcome Vector3d :=
  (index <~ getIndexIntegerBasedOnTime c t ;;
   vector_at (pose_desired c) index)%cpp.

Definition updateTrackingErrors (pose_ref pose : Vector3d) : M LyapController unit :=
  modify (set_errors (v3_0 pose - v3_0 pose_ref)
                     (v3_1 pose - v3_1 pose_ref)
                     (angleWithinPI (v3_2 pose - v3_2 pose_ref))).

Definition computeLaw (pose : Vector3d) : M Frame unit :=
  (f <- get ;;
   if match u_desired (this f) with [] => true | _ => false end
      || match pose_desired (this f) with [] => true | _ => false end
   then
     assign_u_out Vector2d_Zero ;;
     throw DESIRED_TRAJECTORY_INCOMPLETE
   else if finished (this f) then
     print_line "Trajectory control finished" ;;
     assign_u_out Vector2d_Zero
   else
     u_ref <- on_this (const_call (fun c => getControlInputDesiredOnTime c (current_time c))) ;;
     pose_ref <- on_this (const_call (fun c => getPoseDesiredOnTime c (current_time c))) ;;
     on_this (updateTrackingErrors pose_ref pose) ;;
     c <- on_this get ;;
     let alpha := v3_2 pose + v3_2 pose_ref in
     let psi := atan2 (e_y c) (e_x c) in
     let v_ref := v2_0 u_ref in
     let e_xy := sqrt (e_x c ^ 2 + e_y c ^ 2) in
     let du := Vec2 (- Kp c * e_xy * cos (v3_2 pose - psi))
                    (- Ktheta c * e_theta c
                     - v_ref * sinc (e_theta c * 0.5) * sin (psi - alpha * 0.5)) in
     assign_u_out (Vector2d_plus u_ref du))%cpp.

Definition endReached : M LyapController bool :=
  (c <- get ;;
   (if Rge_dec (current_time c) (computeMaxTime c)
    then modify (set_finished true)
    else ret tt) ;;
   c' <- get ;;
   ret (finished c'))%cpp.

Definition step (pose : Vector3d) : M Frame unit :=
  (computeLaw pose ;;
   _ <- on_this endReached ;;
   ret tt)%cpp.

Definition addStateDesired (pose_des : Vector3d) : M LyapController unit :=
  modify (fun c => set_pose_desired (pose_desired c ++ [pose_des]) c).

Definition addToInputDesired (v omega : R) : M LyapController unit :=
  modify (fun c => set_u_desired (u_desired c ++ [Vec2 v omega]) c).

(** The arrays are [const] arguments, so the bounds [int(v.size())] and
    [int(x.size())] are the same at every test of the loops.  The source
    reads [x.at(i)] and [y.at(i)] twice each; a second read neither changes
    the store nor throws where the first did not, so each is bound once. *)
Definition copyTrajectory (v omega x y theta : list R) : M LyapController unit :=
  (for_int (int_of_size (length v)) (fun i =>
     v_i <- const_call (fun _ => vector_at v i) ;;
     omega_i <- const_call (fun _ => vector_at omega i) ;;
     addToInputDesired v_i omega_i) ;;
   for_int (int_of_size (length x)) (fun i =>
     c <- get ;;
     let theta_offset := v3_2 (pose_offset c) in
     x_i <- const_call (fun _ => vector_at x i) ;;
     y_i <- const_call (fun _ => vector_at y i) ;;
     let x_with_offset := v3_0 (pose_offset c) + (cos theta_offset * x_i - sin theta_offset * y_i) in
     let y_with_offset := v3_1 (pose_offset c) + (sin theta_offset * x_i + cos theta_offset * y_i) in
     theta_i <- const_call (fun _ => vector_at theta i) ;;
     let theta_with_offset := theta_offset + theta_i in
     addStateDesired (Vec3 x_with_offset y_with_offset theta_with_offset)) ;;
   c <- get ;;
   modify (set_time_end (computeMaxTime c)) ;;
   modify (set_finished false))%cpp.

Section Integration.

(** The integration scheme of the kinematic model is outside the translated
    file: one fixed step from a state under an input, for a step time. *)
Variable scheme : R -> Vector3d -> Vector2d -> Vector3d.

Definition integrate (m : UnicycleModel) : UnicycleModel :=
  mkUnicycleModel (scheme (model_dt m) (model_state m) (model_input m))
                  (model_input m) (model_dt m).

Definition integrateState (u : Vector2d) : M LyapController Vector3d :=
  (modify (fun c => set_RobotModel (setControlInput u (RobotModel c)) c) ;;
   modify (fun c => set_RobotModel (integrate (RobotModel c)) c) ;;
   c <- get ;;
   ret (getState (RobotModel c)))%cpp.

(** The loop appends poses only, so the bound [int(u_desired.size())] is
    the same at every test. *)
Definition generateTrajectory : M LyapController unit :=
  (modify (fun c => set_RobotModel (resetState (pose_offset c) (RobotModel c)) c) ;;
   c0 <- get ;;
   for_int (int_of_size (length (u_desired c0))) (fun i =>
     c <- get ;;
     u_i <- const_call (fun _ => vector_at (u_desired c) i) ;;
     pose_next <- integrateState u_i ;;
     addStateDesired pose_next) ;;
   c <- get ;;
   modify (set_time_end (computeMaxTime c)) ;;
   modify (set_finished false))%cpp.

End Integration.

(** ** Notions of the specification *)

(** The nearest integer to [x], halfway cases away from zero, as an integer. *)
Definition Zround (x : R) : Z :=
  if Rle_dec 0 x then Int_part (x + / 2) else (- Int_part (- x + / 2))%Z.

(** [z] clamped to [lo .. hi]. *)
Definition clamp (lo hi z : Z) : Z := Z.max lo (Z.min hi z).

(** The rigid roto-translation of a pose by an offset pose. *)
Definition rototranslate (offset p : Vector3d) : Vector3d :=
  Vec3 (v3_0 offset + v3_0 p * cos (v3_2 offset) - v3_1 p * sin (v3_2 offset))
       (v3_1 offset + v3_0 p * sin (v3_2 offset) + v3_1 p * cos (v3_2 offset))
       (v3_2 offset + v3_2 p).

(** Its inverse: take the translation off, then turn back by the offset angle. *)
Definition inverse_rototranslate (offset q : Vector3d) : Vector3d :=
  Vec3 ((v3_0 q - v3_0 offset) * cos (v3_2 offset) + (v3_1 q - v3_1 offset) * sin (v3_2 offset))
       (- (v3_0 q - v3_0 offset) * sin (v3_2 offset) + (v3_1 q - v3_1 offset) * cos (v3_2 offset))
       (v3_2 q - v3_2 offset).

(** A size that an [int] holds. *)
Definition fits_int (n : nat) : Prop := (Z.of_nat n <= INT_MAX)%Z.

(** One call of [step] by the control loop: the caller's clock is written to
    [current_time], then [step] runs on the measured pose. *)
Record call : Type := mkCall { call_time : R; call_pose : Vector3d }.

(** A control loop that catches what [step] throws and goes on: the
    controller after the calls, or [None] when a call ran into undefined
    behaviour, after which nothing is known. *)
Fixpoint drive (calls : list call) (c : LyapController) : option LyapController :=
  match calls with
  | [] => Some c
  | k :: rest =>
      let f := mkFrame (set_current_time (call_time k) c) Vector2d_Zero [] in
      match step (call_pose k) f with
      | (Undefined, _) => None
      | (_, f') => drive rest (this f')
      end
  end.

(** The poses met when integrating the inputs [us] one after the other,
    for the step time [dt], from the pose [p]. *)
Fixpoint simulate (scheme : R -> Vector3d -> Vector2d -> Vector3d)
    (dt : R) (p : Vector3d) (us : list Vector2d) : list Vector3d :=
  match us with
  | [] => []
  | u :: rest => scheme dt p u :: simulate scheme dt (scheme dt p u) rest
  end.

(** [c'] differs from [c] at most in the cached tracking errors. *)
Definition errors_only (c c' : LyapController) : Prop :=
  Kp c' = Kp c /\ Ktheta c' = Ktheta c /\ current_time c' = current_time c /\
  time_end c' = time_end c /\ RobotModel c' = RobotModel c /\
  finished c' = finished c /\ u_desired c' = u_desired c /\
  pose_desired c' = pose_desired c /\ pose_offset c' = pose_offset c.

(** [c'] differs from [c] at most in the cached tracking errors and in
    [finished]. *)
Definition errors_and_finished_only (c c' : LyapController) : Prop :=
  Kp c' = Kp c /\ Ktheta c' = Ktheta c /\ current_time c' = current_time c /\
  time_end c' = time_end c /\ RobotModel c' = RobotModel c /\
  u_desired c' = u_desired c /\
  pose_desired c' = pose_desired c /\ pose_offset c' = pose_offset c.

(** The command of the control law, from the references [u_ref] and
    [pose_ref], the measured [pose] and the gains, as the specification
    writes it. *)
Definition law_e_x (pose pose_ref : Vector3d) : R := v3_0 pose - v3_0 pose_ref.
Definition law_e_y (pose pose_ref : Vector3d) : R := v3_1 pose - v3_1 pose_ref.
Definition law_e_theta (pose pose_ref : Vector3d) : R :=
  angleWithinPI (v3_2 pose - v3_2 pose_ref).

Definition law_dv (kp : R) (pose pose_ref : Vector3d) : R :=
  let ex := law_e_x pose pose_ref in
  let ey := law_e_y pose pose_ref in
  let psi := atan2 ey ex in
  let e_xy := sqrt (ex * ex + ey * ey) in
  - kp * e_xy * cos (v3_2 pose - psi).

Definition law_domega (ktheta : R) (u_ref : Vector2d) (pose pose_ref : Vector3d) : R :=
  let ex := law_e_x pose pose_ref in
  let ey := law_e_y pose pose_ref in
  let eth := law_e_theta pose pose_ref in
  let alpha := v3_2 pose + v3_2 pose_ref in
  let psi := atan2 ey ex in
  let v_ref := v2_0 u_ref in
  - ktheta * eth - v_ref * sinc (eth / 2) * sin (psi - alpha / 2).

(** States to run the functions on: gains 1, step time 1, no offset. *)
Definition sample_model : UnicycleModel :=
  UnicycleModel_ctor Vector3d_Zero Vector2d_Zero 1.

Definition sample_controller (fin : bool) (t : R)
    (us : list Vector2d) (ps : list Vector3d) : LyapController :=
  mkLyapController 1 1 t 0 0 0 0 sample_model fin us ps Vector3d_Zero.

(** The double nearest to 0.1 (0x1.999999999999ap-4), and states with that
    step time. *)
Definition tenth : R := 3602879701896397 / 36028797018963968.

Definition tenth_controller (fin : bool) (t : R)
    (us : list Vector2d) (ps : list Vector3d) : LyapController :=
  mkLyapController 1 1 t 0 0 0 0
    (UnicycleModel_ctor Vector3d_Zero Vector2d_Zero tenth) fin us ps Vector3d_Zero.

(** ** Functions beside the claims *)



Definition tab : string := String (Ascii.ascii_of_nat 9) EmptyString.
Definition endl : string := String (Ascii.ascii_of_nat 10) EmptyString.

Section Diagnostics.

(** [MAX_ITER_TO_PRINT] and [DECIMATION_PRINT] are macros of a header that
    is not among the sources; [show] and [show3] stand for the output of a
    [double] on the stream at its initial precision and at precision 3. *)
Variables MAX_ITER_TO_PRINT DECIMATION_PRINT : Z.
Variables show show3 : R -> string.

(** One line of the table: sample [i] of both sequences. *)
Definition print_row (c : LyapController) (i : Z) : outcome string :=
  (p <~ vector_at (pose_desired c) i ;;
   u <~ vector_at (u_desired c) i ;;
   Normal (show3 (v3_0 p) ++ tab ++ " | " ++ show3 (v3_1 p) ++ tab ++ " | "
           ++ show3 (v3_2 p) ++ tab ++ " | " ++ show3 (v2_0 u) ++ tab ++ " | "
           ++ show3 (v2_1 u) ++ endl)%string)%cpp.

(** The loop of [stringSetupInfo] from index [i] on, [oss] being what the
    stream holds.  The stride is whatever the macro is, so the loop need not
    end: [None] when [fuel] tests of the condition were not enough. *)
Fixpoint print_rows (c : LyapController) (fuel : nat) (i : Z) (oss : string)
    : option (outcome string) :=
  match fuel with
  | O => None
  | S k =>
      if ((i <? int_of_size (length (pose_desired c))) && (i <? MAX_ITER_TO_PRINT))%Z
      then match print_row c i with
           | Normal row =>
               if ((INT_MIN <=? i + DECIMATION_PRINT)
                   && (i + DECIMATION_PRINT <=? INT_MAX))%Z
               then print_rows c k (i + DECIMATION_PRINT)%Z (oss ++ row)%string
               else Some Undefined
           | Throw e => Some (Throw e)
           | Undefined => Some Undefined
           end
      else Some (Normal oss)
  end.

Definition setup_header (c : LyapController) : string :=
  ("starting time: " ++ show (current_time c) ++ " Kp: " ++ show (Kp c)
   ++ " K_theta: " ++ show (Ktheta c) ++ endl
   ++ "x " ++ tab ++ "| y " ++ tab ++ "| theta " ++ tab ++ "| v " ++ tab ++ "| omega" ++ endl)%string.

Definition setup_rule : string :=
  ("------------------------------------------------------" ++ endl)%string.

Definition stringSetupInfo (fuel : nat) (c : LyapController) : option (outcome string) :=
  match print_rows c fuel 0%Z (setup_header c) with
  | Some (Normal oss) =>
      Some (max_idx_1 <~ int_pred (int_of_size (length (pose_desired c))) ;;
            row <~ print_row c max_idx_1 ;;
            Normal (oss ++ setup_rule ++ row)%string)%cpp
  | other => other
  end.

End Diagnostics.

(** The table that the report is to hold, written without the stream: the
    line of a sample, the lines of the samples [i], [i + stride],
    [i + 2 stride], ... ([count] of them), and the number of samples
    [0, stride, 2 stride, ...] below both the pose count [n] and
    [MAX_ITER_TO_PRINT]. *)
Definition row_text (show3 : R -> string) (p : Vector3d) (u : Vector2d) : string :=
  (show3 (v3_0 p) ++ tab ++ " | " ++ show3 (v3_1 p) ++ tab ++ " | "
   ++ show3 (v3_2 p) ++ tab ++ " | " ++ show3 (v2_0 u) ++ tab ++ " | "
   ++ show3 (v2_1 u) ++ endl)%string.

Fixpoint table_rows (show3 : R -> string) (c : LyapController) (stride : Z)
    (count : nat) (i : Z) : string :=
  match count with
  | O => EmptyString
  | S k =>
      (row_text show3 (nth (Z.to_nat i) (pose_desired c) Vector3d_Zero)
                      (nth (Z.to_nat i) (u_desired c) Vector2d_Zero)
       ++ table_rows show3 c stride k (i + stride)%Z)%string
  end.

Definition row_count (n max_iter stride : Z) : nat :=
  Z.to_nat ((Z.min n max_iter + stride - 1) / stride).


(** [c'] holds what [c] holds and, after it, possibly more; gains, clock,
    cached errors, offset and step time are those of [c]. *)
Definition grown_from (c c' : LyapController) : Prop :=
  Kp c' = Kp c /\ Ktheta c' = Ktheta c /\ current_time c' = current_time c /\
  e_x c' = e_x c /\ e_y c' = e_y c /\ e_theta c' = e_theta c /\
  pose_offset c' = pose_offset c /\
  getStepTime (RobotModel c') = getStepTime (RobotModel c) /\
  (exists more, u_desired c' = u_desired c ++ more) /\
  (exists more, pose_desired c' = pose_desired c ++ more).

(** [c'] is [c] with samples appended and nothing else written, not even
    [finished] and [time_end]. *)
Definition appended_only (c c' : LyapController) : Prop :=
  grown_from c c' /\ RobotModel c' = RobotModel c /\
  finished c' = finished c /\ time_end c' = time_end c.

(** The samples that parallel arrays hold, up to the shortest array. *)
Definition zip_inputs (v omega : list R) : list Vector2d :=
  map (fun p => Vec2 (fst p) (snd p)) (combine v omega).

Definition zip_poses (x y theta : list R) : list Vector3d :=
  map (fun p => Vec3 (fst p) (fst (snd p)) (snd (snd p))) (combine x (combine y theta)).

(** Distance in the plane between the positions of two poses. *)
Definition distance (p q : Vector3d) : R :=
  sqrt ((v3_0 p - v3_0 q) * (v3_0 p - v3_0 q) + (v3_1 p - v3_1 q) * (v3_1 p - v3_1 q)).

(** Unfolds the plumbing of [M]. *)
Ltac run_monad :=
  unfold bind, get, ret, modify, throw, on_this, const_call,
         assign_u_out, print_line; cbn.

(** ** Integer parts *)

Lemma Int_part_bounds (r : R) : IZR (Int_part r) <= r < IZR (Int_part r) + 1.
Proof.
  unfold Int_part. rewrite minus_IZR.
  destruct (archimed r) as [Hgt Hle]. lra.
Qed.

Lemma Int_part_unique (r : R) (z : Z) : IZR z <= r < IZR z + 1 -> Int_part r = z.
Proof.
  intros [Hlo Hhi]. unfold Int_part.
  assert (Hup : (z + 1)%Z = up r).
  { apply tech_up; rewrite plus_IZR; lra. }
  rewrite <- Hup. lia.
Qed.

Lemma Int_part_IZR (z : Z) : Int_part (IZR z) = z.
Proof. apply Int_part_unique. lra. Qed.

Lemma Int_part_IZR_half (z : Z) : Int_part (IZR z + / 2) = z.
Proof. apply Int_part_unique. lra. Qed.

Lemma Int_part_mono (a b : R) : a <= b -> (Int_part a <= Int_part b)%Z.
Proof.
  intros Hab.
  destruct (Int_part_bounds a) as [Ha _], (Int_part_bounds b) as [_ Hb].
  assert (H : IZR (Int_part a) < IZR (Int_part b + 1)) by (rewrite plus_IZR; lra).
  apply lt_IZR in H. lia.
Qed.

(** ** Rounding to a double *)

Lemma Znearest_even_floor (x : R) :
  (Int_part x <= Znearest_even x <= Int_part x + 1)%Z.
Proof.
  unfold Znearest_even.
  destruct (Rlt_dec _ _); [lia|]. destruct (Rlt_dec _ _); [lia|].
  destruct (Z.even _); lia.
Qed.

Lemma Znearest_even_IZR (z : Z) : Znearest_even (IZR z) = z.
Proof.
  unfold Znearest_even. rewrite Int_part_IZR.
  destruct (Rlt_dec (IZR z - IZR z) (/ 2)) as [_|H]; [reflexivity|lra].
Qed.

Lemma Znearest_even_mono (x y : R) : x <= y -> (Znearest_even x <= Znearest_even y)%Z.
Proof.
  intros Hxy.
  pose proof (Int_part_mono x y Hxy) as Hf.
  pose proof (Znearest_even_floor x) as Hx. pose proof (Znearest_even_floor y) as Hy.
  destruct (Z.eq_dec (Int_part x) (Int_part y)) as [E|E]; [|lia].
  unfold Znearest_even. rewrite <- E.
  destruct (Rlt_dec (x - IZR (Int_part x)) (/ 2)) as [X1|X1];
    destruct (Rlt_dec (y - IZR (Int_part x)) (/ 2)) as [Y1|Y1]; try lia; try lra;
    destruct (Rlt_dec (/ 2) (x - IZR (Int_part x))) as [X2|X2];
    destruct (Rlt_dec (/ 2) (y - IZR (Int_part x))) as [Y2|Y2]; try lia; try lra;
    destruct (Z.even (Int_part x)); lia.
Qed.

Lemma pow2_pos (e : Z) : 0 < powerRZ 2 e.
Proof. apply powerRZ_lt. lra. Qed.

Lemma pow2_add (a b : Z) : powerRZ 2 (a + b) = powerRZ 2 a * powerRZ 2 b.
Proof. apply powerRZ_add. lra. Qed.

Lemma pow2_exp (e : Z) : powerRZ 2 e = exp (IZR e * ln 2).
Proof. rewrite powerRZ_Rpower by lra. reflexivity. Qed.

Lemma ln2_pos : 0 < ln 2.
Proof. pose proof ln_lt_2. lra. Qed.

Lemma pow2_lt (a b : Z) : (a < b)%Z -> powerRZ 2 a < powerRZ 2 b.
Proof.
  intros H. rewrite !pow2_exp. apply exp_increasing.
  apply Rmult_lt_compat_r; [apply ln2_pos|now apply IZR_lt].
Qed.

Lemma pow2_le (a b : Z) : (a <= b)%Z -> powerRZ 2 a <= powerRZ 2 b.
Proof.
  intros H. destruct (Z.eq_dec a b) as [E|E]; [subst; lra|].
  apply Rlt_le, pow2_lt. lia.
Qed.

Lemma pow2_lt_inv (a b : Z) : powerRZ 2 a < powerRZ 2 b -> (a < b)%Z.
Proof.
  intros H. destruct (Z_lt_le_dec a b) as [L|L]; [exact L|].
  pose proof (pow2_le b a L). lra.
Qed.

Lemma pow2_nonneg_IZR (e : Z) : (0 <= e)%Z -> powerRZ 2 e = IZR (2 ^ e).
Proof.
  intros He. destruct e as [|p|p]; [reflexivity| |lia].
  cbn [powerRZ]. rewrite pow_IZR. now rewrite positive_nat_Z.
Qed.

Lemma pow2_cancel (e : Z) : powerRZ 2 (- e) * powerRZ 2 e = 1.
Proof. rewrite <- pow2_add. replace (- e + e)%Z with 0%Z by lia. reflexivity. Qed.

(** Binary exponents *)

Lemma mag_spec (x : R) : 0 < x -> powerRZ 2 (mag x) <= x < powerRZ 2 (mag x + 1).
Proof.
  intros Hx. unfold mag.
  destruct (Int_part_bounds (ln x / ln 2)) as [Hlo Hhi].
  set (m := Int_part (ln x / ln 2)) in *.
  pose proof ln2_pos as H2.
  assert (Hq : ln x / ln 2 * ln 2 = ln x) by (field; lra).
  rewrite !pow2_exp, plus_IZR.
  split.
  - rewrite <- (exp_ln x Hx).
    destruct (Req_dec (IZR m * ln 2) (ln x)) as [E|E]; [rewrite E; lra|].
    apply Rlt_le, exp_increasing.
    assert (IZR m * ln 2 <= ln x / ln 2 * ln 2) by (apply Rmult_le_compat_r; lra). lra.
  - rewrite <- (exp_ln x Hx) at 1. apply exp_increasing.
    assert (ln x / ln 2 * ln 2 < (IZR m + 1) * ln 2) by (apply Rmult_lt_compat_r; lra). lra.
Qed.

Lemma mag_unique (x : R) (e : Z) :
  powerRZ 2 e <= x < powerRZ 2 (e + 1) -> mag x = e.
Proof.
  intros [Hlo Hhi]. pose proof (pow2_pos e) as Hp.
  assert (Hx : 0 < x) by lra.
  destruct (mag_spec x Hx) as [Mlo Mhi].
  assert (H1 : (mag x < e + 1)%Z) by (apply pow2_lt_inv; lra).
  assert (H2 : (e < mag x + 1)%Z) by (apply pow2_lt_inv; lra).
  lia.
Qed.

Lemma mag_mono (x y : R) : 0 < x -> x <= y -> (mag x <= mag y)%Z.
Proof.
  intros Hx Hxy.
  destruct (mag_spec x Hx) as [Xlo _]. destruct (mag_spec y ltac:(lra)) as [_ Yhi].
  assert (H : (mag x < mag y + 1)%Z) by (apply pow2_lt_inv; lra). lia.
Qed.

Lemma double_exponent_mono (x y : R) :
  0 < x -> x <= y -> (double_exponent x <= double_exponent y)%Z.
Proof. intros Hx Hxy. pose proof (mag_mono x y Hx Hxy). unfold double_exponent. lia. Qed.

Lemma scaled_integer (z e c : Z) :
  (c <= e)%Z -> IZR z * powerRZ 2 e * powerRZ 2 (- c) = IZR (z * 2 ^ (e - c)).
Proof.
  intros H. rewrite Rmult_assoc, <- pow2_add.
  replace (e + - c)%Z with (e - c)%Z by lia.
  rewrite pow2_nonneg_IZR by lia. now rewrite mult_IZR.
Qed.

Lemma round_positive_exact (z e : Z) :
  (0 < z < 2 ^ 53)%Z -> (-1074 <= e)%Z ->
  round_positive (IZR z * powerRZ 2 e) = IZR z * powerRZ 2 e.
Proof.
  intros [Hz0 Hz] He. set (x := IZR z * powerRZ 2 e).
  pose proof (pow2_pos e) as Hpe.
  assert (Hx : 0 < x) by (apply Rmult_lt_0_compat; [now apply IZR_lt|exact Hpe]).
  assert (Hc : (double_exponent x <= e)%Z).
  { unfold double_exponent.
    destruct (mag_spec x Hx) as [Mlo _].
    assert (Hup : x < powerRZ 2 (53 + e)).
    { rewrite pow2_add. rewrite (pow2_nonneg_IZR 53) by lia. unfold x.
      apply Rmult_lt_compat_r; [exact Hpe|now apply IZR_lt]. }
    assert (Hm : (mag x < 53 + e)%Z) by (apply pow2_lt_inv; lra). lia. }
  unfold round_positive. fold x. set (c := double_exponent x) in *.
  unfold x at 1. rewrite (scaled_integer z e c Hc), Znearest_even_IZR.
  rewrite <- (scaled_integer z e c Hc), Rmult_assoc, pow2_cancel. unfold x. ring.
Qed.

Lemma round_positive_nonneg (x : R) : 0 < x -> 0 <= round_positive x.
Proof.
  intros Hx. unfold round_positive.
  apply Rmult_le_pos; [|apply Rlt_le, pow2_pos].
  apply IZR_le. rewrite <- (Znearest_even_IZR 0). apply Znearest_even_mono.
  apply Rmult_le_pos; [lra|apply Rlt_le, pow2_pos].
Qed.

Lemma round_positive_mono (x y : R) :
  0 < x -> x <= y -> round_positive x <= round_positive y.
Proof.
  intros Hx Hxy. assert (Hy : 0 < y) by lra.
  pose proof (double_exponent_mono x y Hx Hxy) as Hc.
  unfold round_positive.
  set (cx := double_exponent x) in *. set (cy := double_exponent y) in *.
  destruct (Z.eq_dec cx cy) as [E|E].
  - rewrite E. apply Rmult_le_compat_r; [apply Rlt_le, pow2_pos|].
    apply IZR_le, Znearest_even_mono.
    apply Rmult_le_compat_r; [apply Rlt_le, pow2_pos|exact Hxy].
  - assert (Hlt : (cx < cy)%Z) by lia.
    assert (Hcy : cy = (mag y - 52)%Z).
    { unfold cy, cx, double_exponent in *. lia. }
    assert (Hmx : (mag x - 52 <= cx)%Z) by (unfold cx, double_exponent; lia).
    destruct (mag_spec x Hx) as [_ Xhi]. destruct (mag_spec y Hy) as [Ylo _].
    apply Rle_trans with (powerRZ 2 (mag y)).
    + (* rounded x stays below 2^(mag y) *)
      assert (Hb : x * powerRZ 2 (- cx) <= IZR (2 ^ (mag y - cx))).
      { rewrite <- pow2_nonneg_IZR by lia.
        replace (mag y - cx)%Z with (mag y + - cx)%Z by lia. rewrite pow2_add.
        apply Rmult_le_compat_r; [apply Rlt_le, pow2_pos|].
        apply Rle_trans with (powerRZ 2 (mag x + 1)); [lra|apply pow2_le; lia]. }
      apply Znearest_even_mono in Hb. rewrite Znearest_even_IZR in Hb.
      apply IZR_le in Hb.
      replace (powerRZ 2 (mag y)) with (IZR (2 ^ (mag y - cx)) * powerRZ 2 cx).
      * apply Rmult_le_compat_r; [apply Rlt_le, pow2_pos|exact Hb].
      * rewrite <- pow2_nonneg_IZR by lia. rewrite <- pow2_add. f_equal. lia.
    + (* rounded y stays above 2^(mag y) *)
      assert (Hb : IZR (2 ^ 52) <= y * powerRZ 2 (- cy)).
      { rewrite <- pow2_nonneg_IZR by lia.
        replace 52%Z with (mag y + - cy)%Z by lia. rewrite pow2_add.
        apply Rmult_le_compat_r; [apply Rlt_le, pow2_pos|lra]. }
      apply Znearest_even_mono in Hb. rewrite Znearest_even_IZR in Hb.
      apply IZR_le in Hb.
      replace (powerRZ 2 (mag y)) with (IZR (2 ^ 52) * powerRZ 2 cy).
      * apply Rmult_le_compat_r; [apply Rlt_le, pow2_pos|exact Hb].
      * rewrite <- pow2_nonneg_IZR by lia. rewrite <- pow2_add. f_equal. lia.
Qed.

Lemma double_round_0 : double_round 0 = 0.
Proof.
  unfold double_round. destruct (Rlt_dec 0 0); [lra|]. destruct (Rlt_dec 0 0); [lra|reflexivity].
Qed.

(** Rounding keeps the order. *)
Lemma double_round_mono (x y : R) : x <= y -> double_round x <= double_round y.
Proof.
  intros Hxy. unfold double_round.
  destruct (Rlt_dec 0 x) as [X|X]; destruct (Rlt_dec 0 y) as [Y|Y]; try lra.
  - now apply round_positive_mono.
  - destruct (Rlt_dec x 0) as [X'|X'].
    + pose proof (round_positive_nonneg (- x) ltac:(lra)).
      pose proof (round_positive_nonneg y Y). lra.
    + apply round_positive_nonneg, Y.
  - destruct (Rlt_dec x 0) as [X'|X']; destruct (Rlt_dec y 0) as [Y'|Y']; try lra.
    + pose proof (round_positive_mono (- y) (- x) ltac:(lra) ltac:(lra)). lra.
    + pose proof (round_positive_nonneg (- x) ltac:(lra)). lra.
Qed.

(** A number of at most 53 significant bits, with its last place not below
    2^-1074, is a double. *)
Lemma double_round_exact (z e : Z) :
  (Z.abs z < 2 ^ 53)%Z -> (-1074 <= e)%Z ->
  double_round (IZR z * powerRZ 2 e) = IZR z * powerRZ 2 e.
Proof.
  intros Hz He. pose proof (pow2_pos e) as Hp. unfold double_round.
  destruct (Z.lt_trichotomy z 0) as [N|[Z0|P]].
  - assert (Hx : IZR z * powerRZ 2 e < 0).
    { apply IZR_lt in N. nra. }
    destruct (Rlt_dec 0 _); [lra|]. destruct (Rlt_dec _ 0); [|lra].
    replace (- (IZR z * powerRZ 2 e)) with (IZR (- z) * powerRZ 2 e)
      by (rewrite opp_IZR; ring).
    rewrite round_positive_exact by lia. rewrite opp_IZR. ring.
  - subst z. rewrite Rmult_0_l.
    destruct (Rlt_dec 0 0); [lra|]. destruct (Rlt_dec 0 0); [lra|reflexivity].
  - assert (Hx : 0 < IZR z * powerRZ 2 e).
    { apply IZR_lt in P. nra. }
    destruct (Rlt_dec 0 _); [|lra]. apply round_positive_exact; lia.
Qed.

Lemma double_round_IZR (z : Z) : (Z.abs z < 2 ^ 53)%Z -> double_round (IZR z) = IZR z.
Proof.
  intros Hz. pose proof (double_round_exact z 0 Hz ltac:(lia)) as H.
  cbn [powerRZ] in H. now rewrite Rmult_1_r in H.
Qed.

Lemma double_round_half (z : Z) :
  (Z.abs (2 * z + 1) < 2 ^ 53)%Z -> double_round (IZR z + / 2) = IZR z + / 2.
Proof.
  intros Hz. pose proof (double_round_exact (2 * z + 1) (-1) Hz ltac:(lia)) as H.
  replace (IZR (2 * z + 1) * powerRZ 2 (-1)) with (IZR z + / 2) in H.
  - exact H.
  - rewrite plus_IZR, mult_IZR. change (powerRZ 2 (-1)) with (/ (2 * 1)). field.
Qed.

Lemma Znearest_even_up (y : R) (f : Z) :
  IZR f + / 2 < y < IZR f + 1 -> Znearest_even y = (f + 1)%Z.
Proof.
  intros [Hlo Hhi]. unfold Znearest_even.
  rewrite (Int_part_unique y f) by lra.
  destruct (Rlt_dec (y - IZR f) (/ 2)); [lra|].
  destruct (Rlt_dec (/ 2) (y - IZR f)); [reflexivity|lra].
Qed.

Lemma Znearest_even_down (y : R) (f : Z) :
  IZR f <= y < IZR f + / 2 -> Znearest_even y = f.
Proof.
  intros [Hlo Hhi]. unfold Znearest_even.
  rewrite (Int_part_unique y f) by lra.
  destruct (Rlt_dec (y - IZR f) (/ 2)); [reflexivity|lra].
Qed.

(** The rounding of a number of the normal range, from its binary exponent. *)
Lemma double_round_normal (x : R) (e n : Z) :
  powerRZ 2 e <= x < powerRZ 2 (e + 1) -> (-1022 <= e)%Z ->
  Znearest_even (x * powerRZ 2 (52 - e)) = n ->
  double_round x = IZR n * powerRZ 2 (e - 52).
Proof.
  intros Hx He Hn. pose proof (pow2_pos e).
  unfold double_round. destruct (Rlt_dec 0 x); [|lra].
  unfold round_positive, double_exponent. rewrite (mag_unique x e Hx).
  rewrite Z.max_l by lia.
  replace (- (e - 52))%Z with (52 - e)%Z by lia. now rewrite Hn.
Qed.

Lemma Znearest_even_near (y : R) : y - / 2 <= IZR (Znearest_even y) <= y + / 2.
Proof.
  unfold Znearest_even. destruct (Int_part_bounds y) as [Hlo Hhi].
  destruct (Rlt_dec _ _); [lra|]. destruct (Rlt_dec _ _); [rewrite plus_IZR; lra|].
  destruct (Z.even _); [lra|rewrite plus_IZR; lra].
Qed.

(** Rounding a positive real takes off at most half a unit of its last
    place. *)
Lemma double_round_near (x : R) :
  0 < x -> x - powerRZ 2 (double_exponent x) / 2 <= double_round x.
Proof.
  intros Hx. unfold double_round. destruct (Rlt_dec 0 x); [|lra].
  unfold round_positive. set (e := double_exponent x).
  pose proof (pow2_pos e) as He.
  destruct (Znearest_even_near (x * powerRZ 2 (- e))) as [Hlo _].
  apply Rmult_le_compat_r with (r := powerRZ 2 e) in Hlo; [|lra].
  replace ((x * powerRZ 2 (- e) - / 2) * powerRZ 2 e)
    with (x * (powerRZ 2 (- e) * powerRZ 2 e) - powerRZ 2 e / 2) in Hlo by field.
  rewrite pow2_cancel in Hlo. lra.
Qed.

(** No positive double is below 2^-1074. *)
Lemma double_positive_min (x : R) : is_double x -> 0 < x -> powerRZ 2 (-1074) <= x.
Proof.
  unfold is_double, double_round. intros Hd Hx. destruct (Rlt_dec 0 x); [|lra].
  unfold round_positive in Hd.
  set (e := double_exponent x) in *. set (m := Znearest_even _) in *.
  assert (He : (-1074 <= e)%Z) by (unfold e, double_exponent; lia).
  pose proof (pow2_pos e) as Hp. pose proof (pow2_le _ _ He) as Hle.
  assert (Hm : (1 <= m)%Z).
  { destruct (Z_lt_le_dec m 1) as [L|L]; [|exact L].
    assert (IZR m <= 0) by (apply IZR_le; lia). nra. }
  apply IZR_le in Hm. rewrite <- Hd. nra.
Qed.

(** ** Rounding to an integer *)

Lemma round_Zround (x : R) : round x = IZR (Zround x).
Proof.
  unfold round, Zround. destruct (Rle_dec 0 x); [reflexivity|].
  now rewrite opp_IZR.
Qed.

Lemma Zround_nonneg (x : R) : 0 <= x -> (0 <= Zround x)%Z.
Proof.
  intros Hx. unfold Zround. destruct (Rle_dec 0 x) as [_|Hn]; [|contradiction].
  rewrite <- (Int_part_IZR 0). apply Int_part_mono. lra.
Qed.

Lemma Zround_IZR (z : Z) : Zround (IZR z) = z.
Proof.
  unfold Zround. destruct (Rle_dec 0 (IZR z)) as [Hz|Hz].
  - apply Int_part_IZR_half.
  - rewrite <- opp_IZR, Int_part_IZR_half. lia.
Qed.

Lemma Zround_half_open (x : R) (k : Z) :
  0 <= x -> IZR k - / 2 <= x < IZR k + / 2 -> Zround x = k.
Proof.
  intros Hx [Hlo Hhi]. unfold Zround.
  destruct (Rle_dec 0 x) as [_|Hn]; [|contradiction].
  apply Int_part_unique. lra.
Qed.

Lemma Zround_ge (x : R) (z : Z) : 0 <= x -> IZR z <= x -> (z <= Zround x)%Z.
Proof.
  intros Hx Hz. unfold Zround. destruct (Rle_dec 0 x) as [_|Hn]; [|contradiction].
  rewrite <- (Int_part_IZR z). apply Int_part_mono. lra.
Qed.

Lemma trunc_IZR (z : Z) : trunc (IZR z) = z.
Proof.
  unfold trunc. destruct (Rle_dec 0 (IZR z)).
  - apply Int_part_IZR.
  - rewrite <- opp_IZR, Int_part_IZR. lia.
Qed.

Lemma int_of_double_round (x : R) :
  (INT_MIN <= Zround x <= INT_MAX)%Z -> int_of_double (round x) = Normal (Zround x).
Proof.
  intros [Hlo Hhi]. unfold int_of_double. rewrite round_Zround, trunc_IZR.
  apply Z.leb_le in Hlo, Hhi. now rewrite Hlo, Hhi.
Qed.

Lemma int_of_double_round_undefined (x : R) :
  (INT_MAX < Zround x)%Z -> int_of_double (round x) = Undefined.
Proof.
  intros H. unfold int_of_double. rewrite round_Zround, trunc_IZR.
  apply Z.leb_gt in H. rewrite H. now rewrite andb_false_r.
Qed.

Lemma int_of_size_fits (n : nat) : fits_int n -> int_of_size n = Z.of_nat n.
Proof.
  unfold fits_int, int_of_size, INT_MAX. intros H.
  rewrite Z.mod_small by lia.
  apply Z.leb_le in H. unfold INT_MAX in H. now rewrite H.
Qed.

Lemma Rceil_unique (r : R) (z : Z) : IZR z - 1 < r <= IZR z -> Rceil r = z.
Proof.
  intros [Hlo Hhi]. unfold Rceil.
  rewrite (Int_part_unique (- r) (- z)); [lia|].
  rewrite opp_IZR. lra.
Qed.

Lemma Rceil_bounds (r : R) : IZR (Rceil r) - 1 < r <= IZR (Rceil r).
Proof.
  unfold Rceil. rewrite opp_IZR.
  destruct (Int_part_bounds (- r)). lra.
Qed.

Lemma PI_gt_3 : 3 < PI.
Proof. pose proof PI2_3_2. lra. Qed.


(** ** The wrapped angle *)

Lemma angleWithinPI_range (a : R) : - PI < angleWithinPI a <= PI.
Proof.
  unfold angleWithinPI.
  pose proof PI_gt_3 as Hpi.
  destruct (Rceil_bounds ((a - PI) / (2 * PI))) as [Hlo Hhi].
  set (k := IZR (Rceil ((a - PI) / (2 * PI)))) in *.
  assert (Hq : (a - PI) / (2 * PI) * (2 * PI) = a - PI) by (field; lra).
  split.
  - assert (H : (k - 1) * (2 * PI) < (a - PI) / (2 * PI) * (2 * PI)).
    { apply Rmult_lt_compat_r; lra. }
    lra.
  - assert (H : (a - PI) / (2 * PI) * (2 * PI) <= k * (2 * PI)).
    { apply Rmult_le_compat_r; lra. }
    lra.
Qed.



(** ** Vectors *)

Lemma vector_at_app {A : Type} (done rest : list A) (a : A) :
  vector_at (done ++ a :: rest) (Z.of_nat (length done)) = Normal a.
Proof.
  unfold vector_at.
  destruct (Z.of_nat (length done) <? 0)%Z eqn:Hneg; [apply Z.ltb_lt in Hneg; lia|].
  rewrite Nat2Z.id, nth_error_app2 by lia.
  now rewrite Nat.sub_diag.
Qed.

Lemma vector_at_nth {A : Type} (l : list A) (i : Z) (d : A) :
  (0 <= i < Z.of_nat (length l))%Z -> vector_at l i = Normal (nth (Z.to_nat i) l d).
Proof.
  intros [Hlo Hhi]. unfold vector_at.
  destruct (i <? 0)%Z eqn:Hneg; [apply Z.ltb_lt in Hneg; lia|].
  destruct (nth_error l (Z.to_nat i)) eqn:Hnth.
  - now rewrite (nth_error_nth _ _ d Hnth).
  - apply nth_error_None in Hnth. lia.
Qed.

Lemma vector_at_beyond {A : Type} (l : list A) (i : Z) :
  (Z.of_nat (length l) <= i)%Z -> vector_at l i = Throw out_of_range.
Proof.
  intros Hi. unfold vector_at.
  destruct (i <? 0)%Z; [reflexivity|].
  destruct (nth_error l (Z.to_nat i)) eqn:Hnth; [|reflexivity].
  assert (Hlt : (Z.to_nat i < length l)%nat) by (apply nth_error_Some; congruence).
  lia.
Qed.

Lemma vector_at_negative {A : Type} (l : list A) (i : Z) :
  (i < 0)%Z -> vector_at l i = Throw out_of_range.
Proof.
  intros Hi. unfold vector_at. apply Z.ltb_lt in Hi. now rewrite Hi.
Qed.

(** ** Tracking errors *)


(** ** The guards of [computeLaw] *)

Lemma computeLaw_empty (c : LyapController) (pose : Vector3d) (u : Vector2d) (out : list string) :
  u_desired c = [] \/ pose_desired c = [] ->
  computeLaw pose (mkFrame c u out)
  = (Throw DESIRED_TRAJECTORY_INCOMPLETE, mkFrame c Vector2d_Zero out).
Proof.
  intros [H|H]; unfold computeLaw, bind, get; cbn; rewrite H.
  - reflexivity.
  - destruct (u_desired c); reflexivity.
Qed.

Lemma computeLaw_finished (c : LyapController) (pose : Vector3d) (u : Vector2d) (out : list string) :
  u_desired c <> [] -> pose_desired c <> [] -> finished c = true ->
  computeLaw pose (mkFrame c u out)
  = (Normal tt, mkFrame c Vector2d_Zero (out ++ ["Trajectory control finished"%string])).
Proof.
  intros Hu Hp Hf. unfold computeLaw, bind, get; cbn.
  destruct (u_desired c); [contradiction|].
  destruct (pose_desired c); [contradiction|].
  cbn. rewrite Hf. reflexivity.
Qed.

(** C4: in every state whose input sequence or pose sequence is empty,
    whatever [finished] holds, [computeLaw] and [step] throw
    DESIRED_TRAJECTORY_INCOMPLETE with the output vector set to zero and the
    controller untouched; a controller fresh from the constructor is such a
    state and has [finished] set, so the emptiness test comes before the
    test of [finished]. *)
Theorem step_empty_trajectory_throws :
  forall (c : LyapController) (pose : Vector3d) (u : Vector2d) (out : list string),
    u_desired c = [] \/ pose_desired c = [] ->
    computeLaw pose (mkFrame c u out)
    = (Throw DESIRED_TRAJECTORY_INCOMPLETE, mkFrame c Vector2d_Zero out) /\
    step pose (mkFrame c u out)
    = (Throw DESIRED_TRAJECTORY_INCOMPLETE, mkFrame c Vector2d_Zero out) /\
    (forall (kp ktheta dt : R) (offset0 : Vector3d),
       let fresh := LyapController_ctor kp ktheta dt offset0 in
       finished fresh = true /\
       step pose (mkFrame fresh u out)
       = (Throw DESIRED_TRAJECTORY_INCOMPLETE, mkFrame fresh Vector2d_Zero out)).
Proof.
  intros c pose u out H.
  split; [now apply computeLaw_empty|].
  split.
  - unfold step, bind. now rewrite computeLaw_empty.
  - intros kp ktheta dt offset0 fresh. split; [reflexivity|].
    unfold step, bind. rewrite computeLaw_empty; [reflexivity|now left].
Qed.

Lemma step_empty_trajectory_throws_witness :
  let c := set_finished true (LyapController_ctor 1 1 1 Vector3d_Zero) in
  step (Vec3 1 2 3) (mkFrame c (Vec2 5 5) [])
  = (Throw DESIRED_TRAJECTORY_INCOMPLETE, mkFrame c Vector2d_Zero []).
Proof.
  intros c.
  apply (step_empty_trajectory_throws c (Vec3 1 2 3) (Vec2 5 5) []).
  left. reflexivity.
Defined.

(** C8: in every state with both sequences non-empty and [finished] set,
    [computeLaw] returns normally with the output vector set to zero and
    every member of the controller as before; the one other thing it does
    is write the line "Trajectory control finished" to the console. *)
Theorem computeLaw_finished_frame :
  forall (c : LyapController) (pose : Vector3d) (u : Vector2d) (out : list string),
    u_desired c <> [] -> pose_desired c <> [] -> finished c = true ->
    let r := computeLaw pose (mkFrame c u out) in
    fst r = Normal tt /\
    u_out (snd r) = Vector2d_Zero /\
    this (snd r) = c /\
    cout (snd r) = out ++ ["Trajectory control finished"%string].
Proof.
  intros c pose u out Hu Hp Hf r. subst r.
  rewrite computeLaw_finished by assumption. cbn. auto.
Qed.

Lemma computeLaw_finished_frame_witness :
  let c := sample_controller true 0 [Vec2 1 0] [Vector3d_Zero] in
  this (snd (computeLaw (Vec3 1 2 3) (mkFrame c (Vec2 5 5) []))) = c.
Proof.
  intros c.
  apply (computeLaw_finished_frame c (Vec3 1 2 3) (Vec2 5 5) []).
  - discriminate.
  - discriminate.
  - reflexivity.
Defined.

(** ** What the entry points write *)

Lemma computeLaw_footprint (pose : Vector3d) (f : Frame) :
  errors_only (this f) (this (snd (computeLaw pose f))).
Proof.
  destruct f as [c u out]. unfold computeLaw, errors_only. run_monad.
  destruct (u_desired c) eqn:Hu; cbn; [repeat split; congruence|].
  destruct (pose_desired c) eqn:Hp; cbn; [repeat split; congruence|].
  destruct (finished c) eqn:Hf; cbn; [repeat split; congruence|].
  destruct (getControlInputDesiredOnTime c (current_time c)); cbn;
    try (repeat split; congruence).
  destruct (getPoseDesiredOnTime c (current_time c)); cbn;
    repeat split; congruence.
Qed.

Lemma endReached_footprint (c : LyapController) :
  errors_and_finished_only c (snd (endReached c)) /\
  e_x (snd (endReached c)) = e_x c /\
  e_y (snd (endReached c)) = e_y c /\
  e_theta (snd (endReached c)) = e_theta c /\
  (finished c = true -> finished (snd (endReached c)) = true).
Proof.
  unfold endReached. run_monad.
  destruct (Rge_dec (current_time c) (computeMaxTime c)); cbn;
    unfold errors_and_finished_only; cbn; repeat split; auto.
Qed.

Lemma step_this (pose : Vector3d) (f : Frame) :
  this (snd (step pose f)) =
  match fst (computeLaw pose f) with
  | Normal _ => snd (endReached (this (snd (computeLaw pose f))))
  | _ => this (snd (computeLaw pose f))
  end.
Proof.
  unfold step, bind.
  destruct (computeLaw pose f) as [[a|e|] f']; cbn [fst snd]; try reflexivity.
  unfold on_this. destruct (endReached (this f')) as [[b|e|] c']; reflexivity.
Qed.

Lemma step_footprint (pose : Vector3d) (f : Frame) :
  errors_and_finished_only (this f) (this (snd (step pose f))) /\
  (finished (this f) = true -> finished (this (snd (step pose f))) = true).
Proof.
  rewrite step_this.
  destruct (computeLaw_footprint pose f) as (H1 & H2 & H3 & H4 & H5 & H6 & H7 & H8 & H9).
  destruct (fst (computeLaw pose f)).
  - destruct (endReached_footprint (this (snd (computeLaw pose f))))
      as ((E1 & E2 & E3 & E4 & E5 & E6 & E7 & E8) & _ & _ & _ & Efin).
    unfold errors_and_finished_only.
    repeat split; try congruence.
    intros Hf. apply Efin. congruence.
  - unfold errors_and_finished_only. repeat split; congruence.
  - unfold errors_and_finished_only. repeat split; congruence.
Qed.

(** C9: whatever the state and however the call ends, [computeLaw] changes
    no member of the controller other than e_x, e_y and e_theta; [step]
    changes none other than those three and [finished], which it can only
    set; so neither writes the gains, [current_time] (which [step] only
    reads), the model, the pose sequence or the input sequence. *)
Theorem runtime_footprint :
  forall (pose : Vector3d) (f : Frame),
    errors_only (this f) (this (snd (computeLaw pose f))) /\
    errors_and_finished_only (this f) (this (snd (step pose f))) /\
    (finished (this f) = true -> finished (this (snd (step pose f))) = true) /\
    Kp (this (snd (step pose f))) = Kp (this f) /\
    Ktheta (this (snd (step pose f))) = Ktheta (this f) /\
    pose_desired (this (snd (step pose f))) = pose_desired (this f) /\
    u_desired (this (snd (step pose f))) = u_desired (this f).
Proof.
  intros pose f.
  destruct (step_footprint pose f) as [Hs Hfin].
  split; [apply computeLaw_footprint|]. split; [exact Hs|]. split; [exact Hfin|].
  destruct Hs as (E1 & E2 & E3 & E4 & E5 & E6 & E7 & E8). auto.
Qed.

Lemma runtime_footprint_witness :
  let f := mkFrame (sample_controller true 0 [Vec2 1 0] [Vector3d_Zero]) (Vec2 5 5) [] in
  finished (this (snd (step (Vec3 1 2 3) f))) = true.
Proof.
  intros f.
  apply (runtime_footprint (Vec3 1 2 3) f).
  reflexivity.
Defined.

(** ** Lookups by time *)

Lemma int_pred_size (n : nat) : int_pred (Z.of_nat n) = Normal (Z.of_nat n - 1)%Z.
Proof.
  unfold int_pred, INT_MIN.
  destruct (-2147483648 <=? Z.of_nat n - 1)%Z eqn:H; [reflexivity|].
  apply Z.leb_gt in H. lia.
Qed.

Lemma getIndexIntegerBasedOnTime_defined (c : LyapController) (t : R) :
  getStepTime (RobotModel c) <> 0 ->
  (INT_MIN <= Zround (double_div t (getStepTime (RobotModel c))) <= INT_MAX)%Z ->
  fits_int (length (pose_desired c)) ->
  getIndexIntegerBasedOnTime c t
  = Normal (if (Z.of_nat (length (pose_desired c))
                <=? Zround (double_div t (getStepTime (RobotModel c))))%Z
            then (Z.of_nat (length (pose_desired c)) - 1)%Z
            else Zround (double_div t (getStepTime (RobotModel c)))).
Proof.
  intros Hdt Hr Hn. unfold getIndexIntegerBasedOnTime.
  destruct (Req_dec_T (getStepTime (RobotModel c)) 0) as [E|_]; [contradiction|].
  rewrite int_of_double_round by assumption. cbn.
  rewrite int_of_size_fits by assumption.
  destruct (Z.of_nat (length (pose_desired c))
            <=? Zround (double_div t (getStepTime (RobotModel c))))%Z; [|reflexivity].
  apply int_pred_size.
Qed.

Lemma getIndexIntegerBasedOnTime_overflow (c : LyapController) (t : R) :
  getStepTime (RobotModel c) <> 0 ->
  (INT_MAX < Zround (double_div t (getStepTime (RobotModel c))))%Z ->
  getIndexIntegerBasedOnTime c t = Undefined.
Proof.
  intros Hdt Hr. unfold getIndexIntegerBasedOnTime.
  destruct (Req_dec_T (getStepTime (RobotModel c)) 0) as [E|_]; [contradiction|].
  now rewrite int_of_double_round_undefined.
Qed.

Lemma quotient_ge (a b k : R) : 0 < b -> k * b <= a -> k <= a / b.
Proof.
  intros Hb H. apply Rmult_le_reg_r with b; [exact Hb|].
  replace (a / b * b) with a by (field; lra). exact H.
Qed.

Lemma quotient_le (a b k : R) : 0 < b -> a <= k * b -> a / b <= k.
Proof.
  intros Hb H. apply Rmult_le_reg_r with b; [exact Hb|].
  replace (a / b * b) with a by (field; lra). exact H.
Qed.

(** Sizes and indices that an [int] holds are doubles. *)
Lemma double_round_int (k : Z) :
  (INT_MIN <= k <= INT_MAX)%Z -> double_round (IZR k) = IZR k.
Proof.
  intros Hk. apply double_round_IZR. unfold INT_MIN, INT_MAX in Hk.
  change (2 ^ 53)%Z with 9007199254740992%Z. lia.
Qed.

Lemma double_round_INR (n : nat) : fits_int n -> double_round (INR n) = INR n.
Proof.
  intros Hn. rewrite INR_IZR_INZ. apply double_round_int.
  unfold fits_int in Hn. unfold INT_MIN. lia.
Qed.

Lemma double_of_size_fits (n : nat) : fits_int n -> double_of_size n = INR n.
Proof. apply double_round_INR. Qed.

Lemma computeMaxTime_fits (c : LyapController) :
  fits_int (length (pose_desired c)) ->
  computeMaxTime c
  = double_round (getStepTime (RobotModel c) * INR (length (pose_desired c))).
Proof.
  intros Hfit. unfold computeMaxTime, double_mul. now rewrite double_of_size_fits.
Qed.

Lemma double_div_nonneg (t dt : R) : 0 <= t -> 0 < dt -> 0 <= double_div t dt.
Proof.
  intros Ht Hdt. unfold double_div. rewrite <- double_round_0.
  apply double_round_mono. apply quotient_ge; lra.
Qed.

Lemma double_div_ge (t dt : R) (n : nat) :
  0 < dt -> fits_int n -> dt * INR n <= t -> INR n <= double_div t dt.
Proof.
  intros Hdt Hfit H. unfold double_div. rewrite <- (double_round_INR n Hfit).
  apply double_round_mono. apply quotient_ge; lra.
Qed.

Lemma double_div_le (t dt : R) (n : nat) :
  0 < dt -> fits_int n -> t <= dt * INR n -> double_div t dt <= INR n.
Proof.
  intros Hdt Hfit H. unfold double_div. rewrite <- (double_round_INR n Hfit).
  apply double_round_mono. apply quotient_le; lra.
Qed.

Lemma double_div_sample (dt : R) (n : nat) :
  dt <> 0 -> fits_int n -> double_div (dt * INR n) dt = INR n.
Proof.
  intros Hdt Hfit. unfold double_div.
  replace (dt * INR n / dt) with (INR n) by (field; exact Hdt).
  now apply double_round_INR.
Qed.

Lemma double_div_unit (k : Z) :
  (INT_MIN <= k <= INT_MAX)%Z -> double_div (IZR k) 1 = IZR k.
Proof.
  intros Hk. unfold double_div. replace (IZR k / 1) with (IZR k) by lra.
  now apply double_round_int.
Qed.

Lemma Zround_double_div_unit (k : Z) :
  (INT_MIN <= k <= INT_MAX)%Z -> Zround (double_div (IZR k) 1) = k.
Proof. intros Hk. rewrite double_div_unit by exact Hk. apply Zround_IZR. Qed.

Lemma double_div_mono (a b dt : R) :
  0 < dt -> a <= b -> double_div a dt <= double_div b dt.
Proof.
  intros Hdt Hab. unfold double_div. apply double_round_mono.
  unfold Rdiv. apply Rmult_le_compat_r; [|exact Hab].
  apply Rlt_le, Rinv_0_lt_compat, Hdt.
Qed.

(** The quotient of the doubles 0.25 and 0.1 is the double 2.5, though the
    real quotient of the two is below 2.5. *)
Lemma quotient_quarter_tenth : double_round ((1 / 4) / tenth) = 5 / 2.
Proof.
  rewrite (double_round_normal _ 1 5629499534213120).
  - change (powerRZ 2 (1 - 52)) with (/ (2 ^ 51)). lra.
  - change (powerRZ 2 1) with (2 ^ 1). change (powerRZ 2 (1 + 1)) with (2 ^ 2).
    unfold tenth. split.
    + apply quotient_ge; lra.
    + apply Rmult_lt_reg_r with (3602879701896397 / 36028797018963968); [lra|].
      replace ((1 / 4) / (3602879701896397 / 36028797018963968)
               * (3602879701896397 / 36028797018963968))
        with (1 / 4) by (field; lra).
      lra.
  - lia.
  - change (powerRZ 2 (52 - 1)) with (2 ^ 51).
    apply (Znearest_even_up _ 5629499534213119).
    unfold tenth.
    replace ((1 / 4) / (3602879701896397 / 36028797018963968) * 2 ^ 51)
      with (20282409603651670423947251286016 / 3602879701896397) by (field; lra).
    split.
    + apply Rmult_lt_reg_r with 3602879701896397; [lra|].
      replace (20282409603651670423947251286016 / 3602879701896397 * 3602879701896397)
        with 20282409603651670423947251286016 by (field; lra).
      lra.
    + apply Rmult_lt_reg_r with 3602879701896397; [lra|].
      replace (20282409603651670423947251286016 / 3602879701896397 * 3602879701896397)
        with 20282409603651670423947251286016 by (field; lra).
      lra.
Qed.

Lemma Zround_quarter_tenth : Zround (double_div (1 / 4) tenth) = 3%Z.
Proof.
  unfold double_div. rewrite quotient_quarter_tenth. apply Zround_half_open; lra.
Qed.


Lemma computeMaxTime_ahead (c : LyapController) (t : R) :
  fits_int (length (pose_desired c)) -> is_double t ->
  t < computeMaxTime c ->
  t <= getStepTime (RobotModel c) * INR (length (pose_desired c)).
Proof.
  intros Hfit Hd H. rewrite computeMaxTime_fits in H by exact Hfit.
  destruct (Rle_dec t (getStepTime (RobotModel c) * INR (length (pose_desired c))))
    as [L|G]; [exact L|].
  assert (Hm : double_round (getStepTime (RobotModel c) * INR (length (pose_desired c)))
               <= double_round t) by (apply double_round_mono; lra).
  rewrite Hd in Hm. lra.
Qed.

Lemma computeMaxTime_unit_step (c : LyapController) :
  getStepTime (RobotModel c) = 1 -> fits_int (length (pose_desired c)) ->
  computeMaxTime c = INR (length (pose_desired c)).
Proof.
  intros Hdt Hfit. rewrite computeMaxTime_fits by exact Hfit.
  rewrite Hdt, Rmult_1_l. now apply double_round_INR.
Qed.

(** Ten steps of the double 0.1 end at the double 1, though the real
    product of the two is above 1. *)
Lemma product_tenth_ten : double_round (tenth * 10) = 1.
Proof.
  rewrite (double_round_normal _ 0 4503599627370496).
  - change (powerRZ 2 (0 - 52)) with (/ (2 ^ 52)). lra.
  - change (powerRZ 2 0) with 1. change (powerRZ 2 (0 + 1)) with (2 ^ 1).
    unfold tenth. lra.
  - lia.
  - change (powerRZ 2 (52 - 0)) with (2 ^ 52).
    apply Znearest_even_down. unfold tenth. lra.
Qed.

Lemma is_double_0 : is_double 0.
Proof. apply double_round_0. Qed.

Lemma is_double_tenth : is_double tenth.
Proof.
  unfold is_double, tenth.
  replace (3602879701896397 / 36028797018963968)
    with (IZR 3602879701896397 * powerRZ 2 (-55))
    by (change (powerRZ 2 (-55)) with (/ (2 ^ 55)); lra).
  apply double_round_exact; cbn; lia.
Qed.

(** [tenth] is what the literal 0.1 denotes. *)
Remark double_round_tenth : double_round (1 / 10) = tenth.
Proof.
  rewrite (double_round_normal _ (-4) 7205759403792794).
  - change (powerRZ 2 (-4 - 52)) with (/ (2 ^ 56)). unfold tenth. lra.
  - change (powerRZ 2 (-4)) with (/ (2 ^ 4)).
    change (powerRZ 2 (-4 + 1)) with (/ (2 ^ 3)). lra.
  - lia.
  - change (powerRZ 2 (52 - -4)) with (2 ^ 56).
    apply (Znearest_even_up _ 7205759403792793). lra.
Qed.

Lemma is_double_half : is_double (1 / 2).
Proof.
  unfold is_double. replace (1 / 2) with (IZR 0 + / 2) by lra.
  apply double_round_half. cbn. lia.
Qed.

Lemma Zround_quotient_nonneg (t dt : R) :
  0 <= t -> 0 < dt -> (0 <= Zround (double_div t dt))%Z.
Proof.
  intros Ht Hdt. apply Zround_nonneg. now apply double_div_nonneg.
Qed.

Lemma Zround_past_end (t dt : R) (n : nat) :
  0 < dt -> fits_int n -> dt * INR n <= t -> (Z.of_nat n <= Zround (double_div t dt))%Z.
Proof.
  intros Hdt Hfit Hend.
  pose proof (double_div_ge t dt n Hdt Hfit Hend) as Hq.
  pose proof (pos_INR n) as Hn.
  apply Zround_ge; [lra|]. now rewrite <- INR_IZR_INZ.
Qed.

Lemma Zround_sample (dt : R) (n : nat) :
  dt <> 0 -> fits_int n -> Zround (double_div (dt * INR n) dt) = Z.of_nat n.
Proof.
  intros Hdt Hfit. rewrite double_div_sample by assumption.
  rewrite INR_IZR_INZ. apply Zround_IZR.
Qed.

(** A time at or past the computed end [double (dt * n)] has a rounded
    quotient of [n] at least: the product loses at most half a unit of its
    last place, which is at most [dt / 2]. *)
Lemma Zround_computed_end (t dt : R) (n : nat) :
  0 < dt -> is_double dt -> (1 <= n)%nat -> fits_int n ->
  double_round (dt * INR n) <= t -> (Z.of_nat n <= Zround (double_div t dt))%Z.
Proof.
  intros Hdt Hd Hn Hfit Hend.
  assert (Hn1 : 1 <= INR n) by (change 1 with (INR 1); apply le_INR; exact Hn).
  assert (Hn52 : INR n <= IZR (2 ^ 52)).
  { rewrite INR_IZR_INZ. apply IZR_le. unfold fits_int, INT_MAX in Hfit.
    change (2 ^ 52)%Z with 4503599627370496%Z. lia. }
  assert (HP : 0 < dt * INR n) by nra.
  pose proof (double_round_near _ HP) as Hnear.
  assert (Hulp : powerRZ 2 (double_exponent (dt * INR n)) <= dt).
  { unfold double_exponent.
    destruct (Z.max_spec (mag (dt * INR n) - 52) (-1074)) as [[_ E]|[_ E]]; rewrite E.
    - now apply double_positive_min.
    - destruct (mag_spec _ HP) as [Mlo _].
      replace (mag (dt * INR n) - 52)%Z with (mag (dt * INR n) + - 52)%Z by lia.
      rewrite pow2_add.
      pose proof (pow2_cancel 52) as Hc. cbn [Z.opp] in Hc.
      rewrite (pow2_nonneg_IZR 52) in Hc by lia.
      pose proof (pow2_pos (-52)) as H52. pose proof (pow2_pos (mag (dt * INR n))) as Hm.
      assert (H1 : powerRZ 2 (mag (dt * INR n)) * powerRZ 2 (-52)
                   <= dt * INR n * powerRZ 2 (-52))
        by (apply Rmult_le_compat_r; lra).
      assert (H2 : INR n * powerRZ 2 (-52) <= IZR (2 ^ 52) * powerRZ 2 (-52))
        by (apply Rmult_le_compat_r; lra).
      assert (H3 : dt * (INR n * powerRZ 2 (-52)) <= dt * (IZR (2 ^ 52) * powerRZ 2 (-52)))
        by (apply Rmult_le_compat_l; lra).
      rewrite (Rmult_comm (IZR (2 ^ 52))), Hc in H3.
      lra. }
  assert (Hq : IZR (Z.of_nat n - 1) + / 2 <= t / dt).
  { apply quotient_ge; [exact Hdt|]. rewrite minus_IZR, <- INR_IZR_INZ. lra. }
  assert (Hfl : IZR (Z.of_nat n - 1) + / 2 <= double_div t dt).
  { rewrite <- double_round_half.
    - unfold double_div. now apply double_round_mono.
    - unfold fits_int, INT_MAX in Hfit. change (2 ^ 53)%Z with 9007199254740992%Z. lia. }
  rewrite minus_IZR, <- INR_IZR_INZ in Hfl.
  unfold Zround. destruct (Rle_dec 0 (double_div t dt)) as [_|F]; [|lra].
  rewrite <- (Int_part_IZR (Z.of_nat n)). apply Int_part_mono.
  rewrite <- INR_IZR_INZ. lra.
Qed.

(** The index of time [t] where the conversion is defined, for a positive
    step time. *)
Lemma getIndexIntegerBasedOnTime_clamp (c : LyapController) (t : R) :
  0 <= t -> 0 < getStepTime (RobotModel c) ->
  (Zround (double_div t (getStepTime (RobotModel c))) <= INT_MAX)%Z ->
  (1 <= length (pose_desired c))%nat -> fits_int (length (pose_desired c)) ->
  getIndexIntegerBasedOnTime c t
  = Normal (clamp 0 (Z.of_nat (length (pose_desired c)) - 1)
                  (Zround (double_div t (getStepTime (RobotModel c))))).
Proof.
  intros Ht Hdt Hmax Hn Hfit.
  pose proof (Zround_quotient_nonneg t _ Ht Hdt) as Hr.
  rewrite getIndexIntegerBasedOnTime_defined; try assumption; try lra.
  - f_equal. unfold clamp.
    destruct (Z.of_nat (length (pose_desired c))
              <=? Zround (double_div t (getStepTime (RobotModel c))))%Z eqn:E.
    + apply Z.leb_le in E. lia.
    + apply Z.leb_gt in E. lia.
  - unfold INT_MIN. lia.
Qed.

Lemma getIndexIntegerBasedOnTime_unit_step (c : LyapController) (k : Z) :
  getStepTime (RobotModel c) = 1 ->
  (INT_MIN <= k <= INT_MAX)%Z ->
  fits_int (length (pose_desired c)) ->
  getIndexIntegerBasedOnTime c (IZR k)
  = Normal (if (Z.of_nat (length (pose_desired c)) <=? k)%Z
            then (Z.of_nat (length (pose_desired c)) - 1)%Z else k).
Proof.
  intros Hdt Hk Hfit.
  assert (Hq : Zround (double_div (IZR k) (getStepTime (RobotModel c))) = k).
  { rewrite Hdt, double_div_unit by exact Hk. apply Zround_IZR. }
  rewrite getIndexIntegerBasedOnTime_defined; rewrite ?Hq; try assumption.
  - reflexivity.
  - rewrite Hdt. lra.
Qed.

Lemma vector_at_nil {A : Type} (i : Z) : vector_at (@nil A) i = Throw out_of_range.
Proof.
  unfold vector_at. destruct (i <? 0)%Z; [reflexivity|].
  now destruct (Z.to_nat i).
Qed.

(** C3 (amended): for a positive step time dt, n >= 1 stored poses (n a
    size an [int] holds) and a time t >= 0 for which round(q) is an [int],
    q being the double quotient t / dt, the index of t is round(q) clamped
    to [0, n-1]; times at or past the end n dt give n-1, and so do, for a
    step time that is a double, times at or past the computed end
    [computeMaxTime()]; the pose lookup returns the stored pose at that
    index as it is; the input lookup returns the stored input at that index
    when the input sequence reaches that far, and throws [out_of_range]
    when it does not. *)
Theorem lookup_on_time :
  forall (c : LyapController) (t : R) (d3 : Vector3d) (d2 : Vector2d),
    0 <= t -> 0 < getStepTime (RobotModel c) ->
    (Zround (double_div t (getStepTime (RobotModel c))) <= INT_MAX)%Z ->
    (1 <= length (pose_desired c))%nat -> fits_int (length (pose_desired c)) ->
    let n := Z.of_nat (length (pose_desired c)) in
    let index := clamp 0 (n - 1) (Zround (double_div t (getStepTime (RobotModel c)))) in
    getIndexIntegerBasedOnTime c t = Normal index /\
    (0 <= index <= n - 1)%Z /\
    (getStepTime (RobotModel c) * INR (length (pose_desired c)) <= t ->
     index = (n - 1)%Z) /\
    (is_double (getStepTime (RobotModel c)) -> computeMaxTime c <= t ->
     index = (n - 1)%Z) /\
    getPoseDesiredOnTime c t = Normal (nth (Z.to_nat index) (pose_desired c) d3) /\
    ((index < Z.of_nat (length (u_desired c)))%Z ->
     getControlInputDesiredOnTime c t = Normal (nth (Z.to_nat index) (u_desired c) d2)) /\
    ((Z.of_nat (length (u_desired c)) <= index)%Z ->
     getControlInputDesiredOnTime c t = Throw out_of_range).
Proof.
  intros c t d3 d2 Ht Hdt Hmax Hn Hfit n index.
  pose proof (getIndexIntegerBasedOnTime_clamp c t Ht Hdt Hmax Hn Hfit) as Hidx.
  fold n in Hidx. fold index in Hidx.
  assert (Hrange : (0 <= index <= n - 1)%Z) by (unfold index, clamp, n; lia).
  split; [exact Hidx|]. split; [exact Hrange|]. split; [|split; [|split; [|split]]].
  - intros Hend.
    pose proof (Zround_past_end t _ _ Hdt Hfit Hend) as Hpast.
    unfold index, clamp, n. lia.
  - intros Hd Hend. rewrite computeMaxTime_fits in Hend by exact Hfit.
    pose proof (Zround_computed_end t _ _ Hdt Hd Hn Hfit Hend) as Hpast.
    unfold index, clamp, n. lia.
  - unfold getPoseDesiredOnTime. rewrite Hidx. cbn.
    apply vector_at_nth. unfold n in Hrange. lia.
  - intros Hin. unfold getControlInputDesiredOnTime. rewrite Hidx. cbn.
    apply vector_at_nth. lia.
  - intros Hout. unfold getControlInputDesiredOnTime. rewrite Hidx. cbn.
    now apply vector_at_beyond.
Qed.

Lemma lookup_on_time_witness :
  let c := tenth_controller false 0 [Vec2 1 0; Vec2 2 0; Vec2 3 0; Vec2 4 0]
             [Vector3d_Zero; Vec3 1 0 0; Vec3 2 0 0; Vec3 3 0 0] in
  getIndexIntegerBasedOnTime c (1 / 4) = Normal 3%Z /\
  getPoseDesiredOnTime c (1 / 4) = Normal (Vec3 3 0 0).
Proof.
  intros c.
  assert (Hq : Zround (double_div (1 / 4) (getStepTime (RobotModel c))) = 3%Z)
    by exact Zround_quarter_tenth.
  destruct (lookup_on_time c (1 / 4) Vector3d_Zero Vector2d_Zero)
    as (Hidx & _ & _ & _ & Hpose & _).
  - lra.
  - cbn. unfold tenth. lra.
  - rewrite Hq. unfold INT_MAX. lia.
  - cbn. lia.
  - unfold fits_int, INT_MAX. cbn. lia.
  - rewrite Hq in Hidx, Hpose. split; [exact Hidx|exact Hpose].
Defined.

(** C3 as stated fails: with two poses and one input, step time 1, the
    input lookup at t = 1 uses index 1 and throws [out_of_range] instead of
    returning a sample; and at t = 2147483648 the rounded quotient is not an
    [int], so no index is defined. *)
Lemma lookup_on_time_counterexample :
  let c := sample_controller false 0 [Vec2 1 0] [Vector3d_Zero; Vec3 1 0 0] in
  (1 <= length (pose_desired c))%nat /\ 0 <= 1 /\
  getIndexIntegerBasedOnTime c 1 = Normal 1%Z /\
  getControlInputDesiredOnTime c 1 = Throw out_of_range /\
  0 <= 2147483648 /\
  getIndexIntegerBasedOnTime c 2147483648 = Undefined.
Proof.
  intros c.
  assert (Hfit : fits_int (length (pose_desired c))) by (unfold fits_int, INT_MAX; cbn; lia).
  assert (H1 : getIndexIntegerBasedOnTime c 1 = Normal 1%Z).
  { rewrite (getIndexIntegerBasedOnTime_unit_step c 1); try assumption; try reflexivity.
    unfold INT_MIN, INT_MAX. lia. }
  split; [cbn; lia|]. split; [lra|]. split; [exact H1|]. split; [|split; [lra|]].
  - unfold getControlInputDesiredOnTime. rewrite H1. reflexivity.
  - apply getIndexIntegerBasedOnTime_overflow.
    + cbn. lra.
    + cbn. unfold double_div. replace (2147483648 / 1) with 2147483648 by lra.
      rewrite (double_round_IZR 2147483648) by (cbn; lia).
      rewrite (Zround_IZR 2147483648). unfold INT_MAX. lia.
Qed.

(** ** The control law *)

Lemma sinc_0 : sinc 0 = 1.
Proof. unfold sinc. destruct (Req_dec_T 0 0) as [_|H]; [reflexivity|now elim H]. Qed.

Lemma lookup_input_nonempty (c : LyapController) (t : R) (u_ref : Vector2d) :
  getControlInputDesiredOnTime c t = Normal u_ref -> u_desired c <> [].
Proof.
  unfold getControlInputDesiredOnTime. intros H E. rewrite E in H.
  destruct (getIndexIntegerBasedOnTime c t); cbn in H; try discriminate.
  rewrite vector_at_nil in H. discriminate.
Qed.

Lemma lookup_pose_nonempty (c : LyapController) (t : R) (pose_ref : Vector3d) :
  getPoseDesiredOnTime c t = Normal pose_ref -> pose_desired c <> [].
Proof.
  unfold getPoseDesiredOnTime. intros H E. rewrite E in H.
  destruct (getIndexIntegerBasedOnTime c t); cbn in H; try discriminate.
  rewrite vector_at_nil in H. discriminate.
Qed.

(** What [computeLaw] does past its two guards. *)
Lemma computeLaw_tracking (c : LyapController) (pose : Vector3d) (u : Vector2d) (out : list string) :
  u_desired c <> [] -> pose_desired c <> [] -> finished c = false ->
  computeLaw pose (mkFrame c u out)
  = match getControlInputDesiredOnTime c (current_time c) with
    | Normal u_ref =>
        match getPoseDesiredOnTime c (current_time c) with
        | Normal pose_ref =>
            let ex := v3_0 pose - v3_0 pose_ref in
            let ey := v3_1 pose - v3_1 pose_ref in
            let eth := angleWithinPI (v3_2 pose - v3_2 pose_ref) in
            let psi := atan2 ey ex in
            (Normal tt,
             mkFrame (set_errors ex ey eth c)
               (Vector2d_plus u_ref
                  (Vec2 (- Kp c * sqrt (ex ^ 2 + ey ^ 2) * cos (v3_2 pose - psi))
                        (- Ktheta c * eth
                         - v2_0 u_ref * sinc (eth * 0.5)
                           * sin (psi - (v3_2 pose + v3_2 pose_ref) * 0.5))))
               out)
        | Throw e => (Throw e, mkFrame c u out)
        | Undefined => (Undefined, mkFrame c u out)
        end
    | Throw e => (Throw e, mkFrame c u out)
    | Undefined => (Undefined, mkFrame c u out)
    end.
Proof.
  intros Hu Hp Hf. unfold computeLaw. run_monad.
  destruct (u_desired c) eqn:Eu; [contradiction|].
  destruct (pose_desired c) eqn:Ep; [contradiction|].
  cbn. rewrite Hf. cbn.
  destruct (getControlInputDesiredOnTime c (current_time c)); cbn; reflexivity.
Qed.




(** ** Inputs shorter than poses *)

(** C10: the index is clamped by the pose count alone and the input lookup
    uses that index; so, for a positive step time, in every state whose
    input sequence is non-empty and shorter than the pose sequence (of a
    size an [int] holds), there is a time t >= 0 at which, with [finished]
    unset, the index is past the end of the inputs though within the poses,
    the input lookup throws [out_of_range], and [computeLaw] ends by that
    exception, neither emitting a command nor throwing
    DESIRED_TRAJECTORY_INCOMPLETE. *)
Theorem input_lookup_out_of_range :
  forall (c : LyapController) (pose : Vector3d) (u : Vector2d) (out : list string),
    0 < getStepTime (RobotModel c) ->
    u_desired c <> [] ->
    (length (u_desired c) < length (pose_desired c))%nat ->
    fits_int (length (pose_desired c)) ->
    exists t : R,
      0 <= t /\
      let c' := set_finished false (set_current_time t c) in
      (exists index : Z,
         getIndexIntegerBasedOnTime c' t = Normal index /\
         (Z.of_nat (length (u_desired c')) <= index < Z.of_nat (length (pose_desired c')))%Z) /\
      getControlInputDesiredOnTime c' t = Throw out_of_range /\
      computeLaw pose (mkFrame c' u out) = (Throw out_of_range, mkFrame c' u out).
Proof.
  intros c pose u out Hdt Hu Hlen Hfit.
  set (k := length (u_desired c)).
  exists (getStepTime (RobotModel c) * INR k).
  split.
  { apply Rmult_le_pos; [lra|apply pos_INR]. }
  intros c'.
  assert (Hk : fits_int k) by (unfold fits_int in *; unfold k; lia).
  assert (Hdt0 : getStepTime (RobotModel c) <> 0) by lra.
  assert (Hidx : getIndexIntegerBasedOnTime c' (getStepTime (RobotModel c) * INR k)
                 = Normal (Z.of_nat k)).
  { rewrite getIndexIntegerBasedOnTime_defined; cbn [c' RobotModel pose_desired
      set_finished set_current_time]; rewrite ?(Zround_sample _ _ Hdt0 Hk).
    - destruct (Z.of_nat (length (pose_desired c)) <=? Z.of_nat k)%Z eqn:E; [|reflexivity].
      apply Z.leb_le in E. unfold k in E. lia.
    - lra.
    - unfold fits_int, INT_MIN in *. unfold k. lia.
    - exact Hfit. }
  assert (Hin : getControlInputDesiredOnTime c' (getStepTime (RobotModel c) * INR k)
                = Throw out_of_range).
  { unfold getControlInputDesiredOnTime. rewrite Hidx. cbn.
    apply vector_at_beyond. unfold k. lia. }
  split; [|split].
  - exists (Z.of_nat k). split; [exact Hidx|]. cbn. unfold k. lia.
  - exact Hin.
  - rewrite computeLaw_tracking.
    + cbn [current_time c' set_finished set_current_time]. fold c'. now rewrite Hin.
    + exact Hu.
    + cbn. intros E. rewrite E in Hlen. cbn in Hlen. lia.
    + reflexivity.
Qed.

Lemma input_lookup_out_of_range_witness :
  let c := sample_controller true 0 [Vec2 1 0] [Vector3d_Zero; Vec3 1 0 0] in
  exists t : R,
    0 <= t /\
    computeLaw Vector3d_Zero (mkFrame (set_finished false (set_current_time t c)) (Vec2 5 5) [])
    = (Throw out_of_range,
       mkFrame (set_finished false (set_current_time t c)) (Vec2 5 5) []).
Proof.
  intros c.
  destruct (input_lookup_out_of_range c Vector3d_Zero (Vec2 5 5) []) as (t & Ht & _ & _ & Hlaw).
  - cbn. lra.
  - discriminate.
  - cbn. lia.
  - unfold fits_int, INT_MAX. cbn. lia.
  - exists t. split; [exact Ht|exact Hlaw].
Defined.

(** ** Loading a trajectory *)

Lemma vector_at_map_app {A B : Type} (f : A -> B) (done rest : list A) (a : A) :
  vector_at (map f (done ++ a :: rest)) (Z.of_nat (length done)) = Normal (f a).
Proof.
  rewrite map_app. cbn [map].
  rewrite <- (length_map f done). apply vector_at_app.
Qed.

Lemma set_u_desired_same (c : LyapController) : set_u_desired (u_desired c) c = c.
Proof. now destruct c. Qed.

Lemma set_pose_desired_same (c : LyapController) : set_pose_desired (pose_desired c) c = c.
Proof. now destruct c. Qed.

Lemma Vec2_eta (a : Vector2d) : Vec2 (v2_0 a) (v2_1 a) = a.
Proof. now destruct a. Qed.

Lemma rototranslate_code (offset p : Vector3d) :
  Vec3 (v3_0 offset + (cos (v3_2 offset) * v3_0 p - sin (v3_2 offset) * v3_1 p))
       (v3_1 offset + (sin (v3_2 offset) * v3_0 p + cos (v3_2 offset) * v3_1 p))
       (v3_2 offset + v3_2 p)
  = rototranslate offset p.
Proof. unfold rototranslate. f_equal; ring. Qed.

(** The first loop of [copyTrajectory], from sample [length done] on. *)
Lemma copyTrajectory_inputs_loop (rest done : list Vector2d) (c : LyapController) :
  for_loop (length rest) (Z.of_nat (length done))
    (fun i =>
       v_i <- const_call (fun _ => vector_at (map v2_0 (done ++ rest)) i) ;;
       omega_i <- const_call (fun _ => vector_at (map v2_1 (done ++ rest)) i) ;;
       addToInputDesired v_i omega_i)%cpp c
  = (Normal tt, set_u_desired (u_desired c ++ rest) c).
Proof.
  revert done c. induction rest as [|a rest IH]; intros done c.
  - cbn. unfold ret. now rewrite app_nil_r, set_u_desired_same.
  - cbn [length for_loop]. unfold bind at 1. unfold bind at 1. unfold const_call at 1.
    rewrite vector_at_map_app. unfold bind at 1. unfold const_call at 1.
    rewrite vector_at_map_app. unfold addToInputDesired at 1, modify at 1.
    rewrite Vec2_eta.
    replace (done ++ a :: rest) with ((done ++ [a]) ++ rest)
      by (rewrite <- app_assoc; reflexivity).
    replace (Z.of_nat (length done) + 1)%Z with (Z.of_nat (length (done ++ [a])))
      by (rewrite length_app; cbn; lia).
    rewrite IH. unfold set_u_desired. cbn.
    now rewrite <- app_assoc.
Qed.

(** The second loop of [copyTrajectory], from sample [length done] on. *)
Lemma copyTrajectory_poses_loop (rest done : list Vector3d) (c : LyapController) :
  for_loop (length rest) (Z.of_nat (length done))
    (fun i =>
       c <- get ;;
       let theta_offset := v3_2 (pose_offset c) in
       x_i <- const_call (fun _ => vector_at (map v3_0 (done ++ rest)) i) ;;
       y_i <- const_call (fun _ => vector_at (map v3_1 (done ++ rest)) i) ;;
       let x_with_offset :=
         v3_0 (pose_offset c) + (cos theta_offset * x_i - sin theta_offset * y_i) in
       let y_with_offset :=
         v3_1 (pose_offset c) + (sin theta_offset * x_i + cos theta_offset * y_i) in
       theta_i <- const_call (fun _ => vector_at (map v3_2 (done ++ rest)) i) ;;
       let theta_with_offset := theta_offset + theta_i in
       addStateDesired (Vec3 x_with_offset y_with_offset theta_with_offset))%cpp c
  = (Normal tt,
     set_pose_desired (pose_desired c ++ map (rototranslate (pose_offset c)) rest) c).
Proof.
  revert done c. induction rest as [|a rest IH]; intros done c.
  - cbn. unfold ret. now rewrite app_nil_r, set_pose_desired_same.
  - cbn [length for_loop]. unfold bind at 1. unfold bind at 1. unfold get at 1.
    cbn zeta. unfold bind at 1. unfold const_call at 1.
    rewrite vector_at_map_app. unfold bind at 1. unfold const_call at 1.
    rewrite vector_at_map_app. unfold bind at 1. unfold const_call at 1.
    rewrite vector_at_map_app. unfold addStateDesired at 1, modify at 1.
    rewrite rototranslate_code.
    replace (done ++ a :: rest) with ((done ++ [a]) ++ rest)
      by (rewrite <- app_assoc; reflexivity).
    replace (Z.of_nat (length done) + 1)%Z with (Z.of_nat (length (done ++ [a])))
      by (rewrite length_app; cbn; lia).
    rewrite IH. unfold set_pose_desired. cbn.
    now rewrite <- app_assoc.
Qed.

(** [copyTrajectory] on parallel arrays, given as the sequences of their
    samples. *)
Lemma copyTrajectory_samples (c : LyapController) (us : list Vector2d) (ps : list Vector3d) :
  fits_int (length us) -> fits_int (length ps) ->
  copyTrajectory (map v2_0 us) (map v2_1 us) (map v3_0 ps) (map v3_1 ps) (map v3_2 ps) c
  = (Normal tt,
     set_finished false
       (set_time_end
          (double_mul (getStepTime (RobotModel c))
             (double_of_size
                (length (pose_desired c ++ map (rototranslate (pose_offset c)) ps))))
          (set_pose_desired (pose_desired c ++ map (rototranslate (pose_offset c)) ps)
             (set_u_desired (u_desired c ++ us) c)))).
Proof.
  intros Hus Hps. unfold copyTrajectory, for_int.
  rewrite !length_map, !int_of_size_fits, !Nat2Z.id by assumption.
  pose proof (copyTrajectory_inputs_loop us [] c) as Hin.
  pose proof (copyTrajectory_poses_loop ps [] (set_u_desired (u_desired c ++ us) c)) as Hpo.
  cbn [length app Z.of_nat] in Hin, Hpo.
  unfold bind at 1. rewrite Hin.
  unfold bind at 1. rewrite Hpo.
  reflexivity.
Qed.

(** The loop of [generateTrajectory], from input [length done] on. *)
Lemma generateTrajectory_loop (scheme : R -> Vector3d -> Vector2d -> Vector3d)
    (rest done : list Vector2d) (c : LyapController) :
  u_desired c = done ++ rest ->
  exists c' : LyapController,
    for_loop (length rest) (Z.of_nat (length done))
      (fun i =>
         c <- get ;;
         u_i <- const_call (fun _ => vector_at (u_desired c) i) ;;
         pose_next <- integrateState scheme u_i ;;
         addStateDesired pose_next)%cpp c
    = (Normal tt, c') /\
    pose_desired c'
    = pose_desired c
      ++ simulate scheme (getStepTime (RobotModel c)) (getState (RobotModel c)) rest /\
    u_desired c' = u_desired c /\
    getStepTime (RobotModel c') = getStepTime (RobotModel c).
Proof.
  revert done c. induction rest as [|a rest IH]; intros done c Hu.
  - exists c. cbn. unfold ret. now rewrite app_nil_r.
  - cbn [length for_loop]. unfold bind at 1. unfold bind at 1. unfold get at 1.
    unfold bind at 1. unfold const_call at 1.
    rewrite Hu, vector_at_app.
    unfold bind at 1. unfold integrateState at 1. run_monad.
    match goal with
    | |- exists c', for_loop _ _ _ ?c1 = _ /\ _ =>
        destruct (IH (done ++ [a]) c1) as (c' & Hloop & Hp & Hus & Hdt)
    end.
    { cbn. rewrite Hu, <- app_assoc. reflexivity. }
    exists c'. split; [|split; [|split]].
    + replace (Z.of_nat (length done) + 1)%Z with (Z.of_nat (length (done ++ [a])))
        by (rewrite length_app; cbn; lia).
      exact Hloop.
    + cbn in Hp. rewrite Hp, <- app_assoc. reflexivity.
    + rewrite Hus. exact Hu.
    + rewrite Hdt. reflexivity.
Qed.

(** [generateTrajectory] keeps what the store holds and appends the poses
    integrated from the offset pose under the stored inputs. *)
Lemma generateTrajectory_result (scheme : R -> Vector3d -> Vector2d -> Vector3d)
    (c : LyapController) :
  fits_int (length (u_desired c)) ->
  exists c' : LyapController,
    generateTrajectory scheme c = (Normal tt, c') /\
    pose_desired c'
    = pose_desired c
      ++ simulate scheme (getStepTime (RobotModel c)) (pose_offset c) (u_desired c) /\
    u_desired c' = u_desired c /\
    getStepTime (RobotModel c') = getStepTime (RobotModel c) /\
    time_end c'
    = double_mul (getStepTime (RobotModel c')) (double_of_size (length (pose_desired c'))) /\
    finished c' = false.
Proof.
  intros Hfit. unfold generateTrajectory, for_int.
  unfold bind at 1. unfold modify at 1. unfold bind at 1. unfold get at 1.
  set (c0 := set_RobotModel (resetState (pose_offset c) (RobotModel c)) c).
  change (u_desired c0) with (u_desired c).
  rewrite int_of_size_fits, Nat2Z.id by assumption.
  destruct (generateTrajectory_loop scheme (u_desired c) [] c0 eq_refl)
    as (c1 & Hloop & Hp & Hus & Hdt).
  cbn [length Z.of_nat] in Hloop.
  unfold bind at 1. rewrite Hloop. run_monad.
  eexists. split; [reflexivity|]. cbn.
  repeat split; try assumption.
Qed.

(** Arrays that are not parallel are another matter: with [omega] shorter
    than [v] the first loop throws at the first missing element, and what
    was pushed before stays in the store. *)
Remark copyTrajectory_ragged (c : LyapController) :
  copyTrajectory [1; 2] [0] [] [] [] c
  = (Throw out_of_range, set_u_desired (u_desired c ++ [Vec2 1 0]) c).
Proof. reflexivity. Qed.

(** C6: for every sequence of (v, omega) samples and of (x, y, theta)
    samples (of sizes an [int] holds), passed as parallel arrays,
    [copyTrajectory] returns normally, appends the (v, omega) samples to the
    input sequence unchanged and appends to the pose sequence each pose
    sample roto-translated by the offset pose:
    x' = x0 + x cos theta0 - y sin theta0, y' = y0 + x sin theta0 + y cos theta0,
    theta' = theta0 + theta; with offset (0, 0, 0) the stored poses are the
    supplied samples, and for any offset the inverse roto-translation of
    the stored poses gives the supplied samples back; on an empty store the
    sequences afterwards are exactly these. *)
Theorem copyTrajectory_rototranslation :
  forall (c : LyapController) (us : list Vector2d) (ps : list Vector3d),
    fits_int (length us) -> fits_int (length ps) ->
    let r := copyTrajectory (map v2_0 us) (map v2_1 us)
                            (map v3_0 ps) (map v3_1 ps) (map v3_2 ps) c in
    let stored := map (rototranslate (pose_offset c)) ps in
    fst r = Normal tt /\
    u_desired (snd r) = u_desired c ++ us /\
    pose_desired (snd r) = pose_desired c ++ stored /\
    (pose_offset c = Vector3d_Zero -> stored = ps) /\
    map (inverse_rototranslate (pose_offset c)) stored = ps /\
    (u_desired c = [] -> pose_desired c = [] ->
     u_desired (snd r) = us /\ pose_desired (snd r) = stored).
Proof.
  intros c us ps Hus Hps r stored. subst r.
  rewrite copyTrajectory_samples by assumption. cbn.
  split; [reflexivity|]. split; [reflexivity|]. split; [reflexivity|].
  split; [|split].
  - intros Hz. unfold stored. rewrite Hz.
    rewrite <- (map_id ps) at 2. apply map_ext. intros [x y th].
    unfold rototranslate. cbn. rewrite cos_0, sin_0. f_equal; ring.
  - unfold stored. rewrite map_map.
    rewrite <- (map_id ps) at 2. apply map_ext. intros [x y th].
    unfold inverse_rototranslate, rototranslate. cbn.
    pose proof (sin2_cos2 (v3_2 (pose_offset c))) as Hsc. unfold Rsqr in Hsc.
    set (s := sin (v3_2 (pose_offset c))) in *.
    set (k := cos (v3_2 (pose_offset c))) in *.
    f_equal.
    + transitivity (x * (s * s + k * k)); [ring|rewrite Hsc; ring].
    + transitivity (y * (s * s + k * k)); [ring|rewrite Hsc; ring].
    + ring.
  - intros Eu Ep. rewrite Eu, Ep. split; reflexivity.
Qed.

Lemma copyTrajectory_rototranslation_witness :
  let c := sample_controller true 0 [] [] in
  pose_desired (snd (copyTrajectory (map v2_0 [Vec2 1 0]) (map v2_1 [Vec2 1 0])
                       (map v3_0 [Vec3 1 2 3]) (map v3_1 [Vec3 1 2 3])
                       (map v3_2 [Vec3 1 2 3]) c))
  = pose_desired c ++ map (rototranslate (pose_offset c)) [Vec3 1 2 3].
Proof.
  intros c.
  assert (H1 : fits_int (length [Vec2 1 0])) by (unfold fits_int, INT_MAX; cbn; lia).
  assert (H3 : fits_int (length [Vec3 1 2 3])) by (unfold fits_int, INT_MAX; cbn; lia).
  destruct (copyTrajectory_rototranslation c [Vec2 1 0] [Vec3 1 2 3] H1 H3)
    as (_ & _ & Hp & _).
  exact Hp.
Defined.

(** C7 (amended): every invocation of [copyTrajectory] (on parallel arrays)
    or [generateTrajectory] (sizes being ones an [int] holds) returns
    normally and appends to the store, keeping what it held before:
    [copyTrajectory] appends the supplied inputs and the roto-translated
    poses, [generateTrajectory] keeps the inputs and appends one integrated
    pose per stored input; on completion time_end is the step time times the
    number of poses then stored, old and new (the product of doubles: the
    count converted, the product rounded), and [finished] is unset.  The
    state is arbitrary, so this holds for an invocation after earlier ones. *)
Theorem load_trajectory_appends :
  forall (scheme : R -> Vector3d -> Vector2d -> Vector3d)
         (c : LyapController) (us : list Vector2d) (ps : list Vector3d),
    fits_int (length us) -> fits_int (length ps) -> fits_int (length (u_desired c)) ->
    let r := copyTrajectory (map v2_0 us) (map v2_1 us)
                            (map v3_0 ps) (map v3_1 ps) (map v3_2 ps) c in
    let g := generateTrajectory scheme c in
    (fst r = Normal tt /\
     u_desired (snd r) = u_desired c ++ us /\
     pose_desired (snd r) = pose_desired c ++ map (rototranslate (pose_offset c)) ps /\
     time_end (snd r)
     = double_mul (getStepTime (RobotModel (snd r)))
                  (double_of_size (length (pose_desired (snd r)))) /\
     finished (snd r) = false) /\
    (fst g = Normal tt /\
     u_desired (snd g) = u_desired c /\
     pose_desired (snd g)
     = pose_desired c
       ++ simulate scheme (getStepTime (RobotModel c)) (pose_offset c) (u_desired c) /\
     getStepTime (RobotModel (snd g)) = getStepTime (RobotModel c) /\
     time_end (snd g)
     = double_mul (getStepTime (RobotModel (snd g)))
                  (double_of_size (length (pose_desired (snd g)))) /\
     finished (snd g) = false).
Proof.
  intros scheme c us ps Hus Hps Hc r g. split.
  - subst r. rewrite copyTrajectory_samples by assumption. cbn.
    repeat split; reflexivity.
  - subst g.
    destruct (generateTrajectory_result scheme c Hc) as (c' & Hg & Hp & Hu & Hdt & Hte & Hf).
    rewrite Hg. cbn. repeat split; assumption.
Qed.

Lemma load_trajectory_appends_witness :
  let c := sample_controller true 0 [Vec2 1 0] [Vec3 1 0 0] in
  pose_desired (snd (generateTrajectory (fun _ p _ => p) c))
  = pose_desired c
    ++ simulate (fun _ p _ => p) (getStepTime (RobotModel c)) (pose_offset c) (u_desired c).
Proof.
  intros c.
  assert (H1 : fits_int (length [Vec2 2 0])) by (unfold fits_int, INT_MAX; cbn; lia).
  assert (H3 : fits_int (length [Vec3 2 0 0])) by (unfold fits_int, INT_MAX; cbn; lia).
  assert (Hc : fits_int (length (u_desired c))) by (unfold fits_int, INT_MAX; cbn; lia).
  destruct (load_trajectory_appends (fun _ p _ => p) c [Vec2 2 0] [Vec3 2 0 0] H1 H3 Hc)
    as (_ & _ & _ & Hp & _).
  exact Hp.
Defined.

(** C7 as stated fails: on a controller fresh from the constructor, a
    first [copyTrajectory] of the sample (1, 0), (1, 0, 0) followed by a
    second one of the sample (2, 0), (2, 0, 0) leaves two inputs and two
    poses, the first trajectory's before the second's; the second call did
    not replace what the first had stored. *)
Lemma load_trajectory_appends_counterexample :
  let c0 := LyapController_ctor 1 1 1 Vector3d_Zero in
  let c1 := snd (copyTrajectory [1] [0] [1] [0] [0] c0) in
  let c2 := snd (copyTrajectory [2] [0] [2] [0] [0] c1) in
  u_desired c2 = [Vec2 1 0; Vec2 2 0] /\
  u_desired c2 <> [Vec2 2 0] /\
  length (pose_desired c2) = 2%nat /\
  pose_desired c2
  = [rototranslate Vector3d_Zero (Vec3 1 0 0); rototranslate Vector3d_Zero (Vec3 2 0 0)].
Proof.
  intros c0 c1 c2.
  assert (H1 : fits_int 1) by (unfold fits_int, INT_MAX; lia).
  pose proof (copyTrajectory_samples c0 [Vec2 1 0] [Vec3 1 0 0] H1 H1) as E1.
  cbn [map v2_0 v2_1 v3_0 v3_1 v3_2] in E1. fold c1 in E1.
  assert (Hc1 : c1 = snd (copyTrajectory [1] [0] [1] [0] [0] c0)) by reflexivity.
  rewrite E1 in Hc1. cbn [snd] in Hc1.
  pose proof (copyTrajectory_samples c1 [Vec2 2 0] [Vec3 2 0 0] H1 H1) as E2.
  cbn [map v2_0 v2_1 v3_0 v3_1 v3_2] in E2.
  assert (Hc2 : c2 = snd (copyTrajectory [2] [0] [2] [0] [0] c1)) by reflexivity.
  rewrite E2 in Hc2. cbn [snd] in Hc2.
  rewrite Hc2, Hc1. cbn.
  repeat split; try reflexivity. discriminate.
Qed.

(** ** Completion *)

Lemma step_outcome (pose : Vector3d) (f : Frame) :
  fst (step pose f)
  = match fst (computeLaw pose f) with
    | Normal _ => Normal tt
    | Throw e => Throw e
    | Undefined => Undefined
    end.
Proof.
  unfold step, bind.
  destruct (computeLaw pose f) as [[a|e|] f']; cbn [fst snd]; try reflexivity.
  unfold on_this, endReached. run_monad.
  destruct (Rge_dec (current_time (this f')) (computeMaxTime (this f'))); reflexivity.
Qed.

Lemma computeMaxTime_errors_only (c c' : LyapController) :
  errors_only c c' -> computeMaxTime c' = computeMaxTime c.
Proof.
  intros (_ & _ & _ & _ & Hm & _ & _ & Hp & _). unfold computeMaxTime. now rewrite Hm, Hp.
Qed.

Lemma endReached_finished (c : LyapController) :
  finished (snd (endReached c)) = true <->
  finished c = true \/ current_time c >= computeMaxTime c.
Proof.
  unfold endReached. run_monad.
  destruct (Rge_dec (current_time c) (computeMaxTime c)) as [Hge|Hlt]; cbn.
  - split; auto.
  - split; [auto|]. intros [H|H]; [exact H|contradiction].
Qed.

Lemma step_finished_normal (pose : Vector3d) (f : Frame) :
  fst (computeLaw pose f) = Normal tt ->
  (finished (this (snd (step pose f))) = true <->
   finished (this f) = true \/ current_time (this f) >= computeMaxTime (this f)).
Proof.
  intros Hn. rewrite step_this, Hn.
  pose proof (computeLaw_footprint pose f) as Hfoot.
  pose proof (computeMaxTime_errors_only _ _ Hfoot) as Hmax.
  destruct Hfoot as (_ & _ & Ht & _ & _ & Hf & _).
  rewrite endReached_finished, Hmax, Ht, Hf. reflexivity.
Qed.

Lemma step_finished_throw (pose : Vector3d) (f : Frame) (e : exception) :
  fst (computeLaw pose f) = Throw e ->
  fst (step pose f) = Throw e /\
  finished (this (snd (step pose f))) = finished (this f).
Proof.
  intros Ht. rewrite step_outcome, step_this, Ht. split; [reflexivity|].
  now destruct (computeLaw_footprint pose f) as (_ & _ & _ & _ & _ & Hf & _).
Qed.

Lemma vector_at_defined {A : Type} (l : list A) (i : Z) : vector_at l i <> Undefined.
Proof.
  unfold vector_at. destruct (i <? 0)%Z; [discriminate|].
  destruct (nth_error l (Z.to_nat i)); discriminate.
Qed.

Lemma Zround_le (x : R) (z : Z) : 0 <= x -> x <= IZR z -> (Zround x <= z)%Z.
Proof.
  intros Hx Hz. unfold Zround. destruct (Rle_dec 0 x) as [_|Hn]; [|contradiction].
  rewrite <- (Int_part_IZR_half z). apply Int_part_mono. lra.
Qed.

Lemma Zround_before_end (t dt : R) (n : nat) :
  0 <= t -> 0 < dt -> fits_int n -> t <= dt * INR n ->
  (Zround (double_div t dt) <= Z.of_nat n)%Z.
Proof.
  intros Ht Hdt Hfit Hend. apply Zround_le.
  - now apply double_div_nonneg.
  - rewrite <- INR_IZR_INZ. now apply double_div_le.
Qed.

(** With [finished] set no lookup is made, so the call is defined. *)
Lemma computeLaw_finished_defined (pose : Vector3d) (f : Frame) :
  finished (this f) = true -> fst (computeLaw pose f) <> Undefined.
Proof.
  destruct f as [c u out]. cbn [this]. intros Hf.
  destruct (u_desired c) eqn:Eu.
  { rewrite computeLaw_empty by now left. discriminate. }
  destruct (pose_desired c) eqn:Ep.
  { rewrite computeLaw_empty by now right. discriminate. }
  rewrite computeLaw_finished; [discriminate|congruence|congruence|exact Hf].
Qed.

(** Before the end of the trajectory the index is defined, so the call is. *)
Lemma computeLaw_tracking_defined (pose : Vector3d) (f : Frame) :
  0 < getStepTime (RobotModel (this f)) ->
  fits_int (length (pose_desired (this f))) ->
  is_double (current_time (this f)) ->
  0 <= current_time (this f) < computeMaxTime (this f) ->
  fst (computeLaw pose f) <> Undefined.
Proof.
  destruct f as [c u out]. intros Hdt Hfit Hd [Ht Hend]. cbn [this] in *.
  pose proof (computeMaxTime_ahead c _ Hfit Hd Hend) as Hexact.
  pose proof (Zround_before_end _ _ _ Ht Hdt Hfit Hexact) as Hr.
  destruct (finished c) eqn:Hf.
  { now apply computeLaw_finished_defined. }
  destruct (u_desired c) as [|u0 us] eqn:Eu.
  { rewrite computeLaw_empty by now left. discriminate. }
  destruct (pose_desired c) as [|p0 ps] eqn:Ep.
  { rewrite computeLaw_empty by now right. discriminate. }
  rewrite computeLaw_tracking; [|congruence|congruence|exact Hf].
  assert (Hidx : exists index, getIndexIntegerBasedOnTime c (current_time c) = Normal index).
  { eexists. apply getIndexIntegerBasedOnTime_clamp; try assumption.
    - unfold fits_int in Hfit. lia.
    - rewrite Ep. cbn. lia.
    - rewrite Ep. exact Hfit. }
  destruct Hidx as [index Hidx].
  unfold getControlInputDesiredOnTime, getPoseDesiredOnTime. rewrite Hidx. cbn [obind].
  pose proof (vector_at_defined (u_desired c) index) as Hu.
  pose proof (vector_at_defined (pose_desired c) index) as Hp.
  destruct (vector_at (u_desired c) index); [|discriminate|contradiction].
  destruct (vector_at (pose_desired c) index); [discriminate|discriminate|contradiction].
Qed.

Lemma drive_latched (calls : list call) :
  forall c : LyapController,
    finished c = true ->
    exists c' : LyapController, drive calls c = Some c' /\ finished c' = true.
Proof.
  induction calls as [|k rest IH]; intros c Hf.
  - exists c. split; [reflexivity|exact Hf].
  - cbn [drive].
    set (f := mkFrame (set_current_time (call_time k) c) Vector2d_Zero []).
    assert (Hff : finished (this f) = true) by exact Hf.
    pose proof (computeLaw_finished_defined (call_pose k) f Hff) as Hdef.
    destruct (step_footprint (call_pose k) f) as [_ Hkeep].
    pose proof (step_outcome (call_pose k) f) as Hout.
    destruct (step (call_pose k) f) as [[a|e|] f'] eqn:E; cbn [fst snd] in *.
    + apply IH. now apply Hkeep.
    + apply IH. now apply Hkeep.
    + destruct (fst (computeLaw (call_pose k) f)); try discriminate. now elim Hdef.
Qed.

Lemma drive_before_end (calls : list call) :
  forall c : LyapController,
    0 < getStepTime (RobotModel c) ->
    fits_int (length (pose_desired c)) ->
    finished c = false ->
    Forall (fun k => is_double (call_time k) /\ 0 <= call_time k < computeMaxTime c) calls ->
    exists c' : LyapController, drive calls c = Some c' /\ finished c' = false.
Proof.
  induction calls as [|k rest IH]; intros c Hdt Hfit Hf Hcalls.
  - exists c. split; [reflexivity|exact Hf].
  - inversion Hcalls as [|k0 rest0 [Hd Hk] Hrest]; subst.
    cbn [drive].
    set (f := mkFrame (set_current_time (call_time k) c) Vector2d_Zero []).
    assert (Hdef : fst (computeLaw (call_pose k) f) <> Undefined).
    { apply computeLaw_tracking_defined; assumption. }
    destruct (step_footprint (call_pose k) f) as [Hfoot _].
    pose proof (step_outcome (call_pose k) f) as Hout.
    pose proof (step_finished_normal (call_pose k) f) as Hnormal.
    pose proof (step_finished_throw (call_pose k) f) as Hthrow.
    assert (Hnext : finished (this (snd (step (call_pose k) f))) = false).
    { destruct (fst (computeLaw (call_pose k) f)) as [[]|e|].
      - destruct (finished (this (snd (step (call_pose k) f)))) eqn:E; [|reflexivity].
        destruct (proj1 (Hnormal eq_refl) eq_refl) as [H|H].
        + cbn in H. congruence.
        + change (call_time k >= computeMaxTime c) in H. lra.
      - destruct (Hthrow e eq_refl) as [_ H]. rewrite H. exact Hf.
      - now elim Hdef. }
    destruct Hfoot as (_ & _ & _ & _ & Hm & _ & Hp & _).
    cbn [this f RobotModel pose_desired set_current_time] in Hm, Hp.
    destruct (step (call_pose k) f) as [[a|e|] f'] eqn:E; cbn [fst snd] in *.
    + apply IH; try congruence.
      unfold computeMaxTime in *. now rewrite Hm, Hp.
    + apply IH; try congruence.
      unfold computeMaxTime in *. now rewrite Hm, Hp.
    + destruct (fst (computeLaw (call_pose k) f)); try discriminate. now elim Hdef.
Qed.

(** Ten samples at the step time 0.1 and the clock at 1: the computed end is
    1, the end test holds, and the lookups are at the last sample. *)
Remark end_reached_at_one (us : list Vector2d) (ps : list Vector3d) :
  length ps = 10%nat ->
  let c := tenth_controller false 1 us ps in
  computeMaxTime c = 1 /\
  finished (snd (endReached c)) = true /\
  getIndexIntegerBasedOnTime c 1 = Normal 9%Z.
Proof.
  intros Hn c.
  assert (Hfit : fits_int (length (pose_desired c))).
  { unfold fits_int, INT_MAX. cbn. rewrite Hn. cbn. lia. }
  assert (Hmax : computeMaxTime c = 1).
  { rewrite computeMaxTime_fits by exact Hfit. cbn [c tenth_controller RobotModel
      pose_desired getStepTime UnicycleModel_ctor model_dt].
    rewrite Hn, INR_IZR_INZ. exact product_tenth_ten. }
  split; [exact Hmax|]. split.
  - apply endReached_finished. right. rewrite Hmax. cbn. lra.
  - assert (Hdt : 0 < getStepTime (RobotModel c)) by (cbn; unfold tenth; lra).
    assert (Hd : is_double (getStepTime (RobotModel c))) by exact is_double_tenth.
    assert (Hge : (10 <= Zround (double_div 1 (getStepTime (RobotModel c))))%Z).
    { apply (Zround_computed_end 1 _ 10 Hdt Hd); try lia.
      - unfold fits_int, INT_MAX. lia.
      - cbn -[INR]. rewrite INR_IZR_INZ. change (IZR (Z.of_nat 10)) with 10.
        rewrite product_tenth_ten. lra. }
    assert (Hle : (Zround (double_div 1 (getStepTime (RobotModel c))) <= 10)%Z).
    { apply (Zround_before_end 1 _ 10); try lra.
      - unfold fits_int, INT_MAX. lia.
      - cbn -[INR]. rewrite INR_IZR_INZ. change (IZR (Z.of_nat 10)) with 10.
        unfold tenth. lra. }
    rewrite getIndexIntegerBasedOnTime_clamp; try assumption; try lra.
    + cbn [c tenth_controller pose_desired]. rewrite Hn. unfold clamp. f_equal. lia.
    + unfold INT_MAX. lia.
    + cbn. rewrite Hn. lia.
Qed.

(** C5 (amended): loading a trajectory, by [copyTrajectory] or
    [generateTrajectory], unsets [finished]; a [step] whose control
    computation returns normally ends with [finished] set exactly when it
    was set before or current_time >= [computeMaxTime()], the double
    product of the step time and the pose count n; a [step] whose control
    computation throws ends by that exception with [finished] as it was,
    the test being skipped; so, for a positive step time and a pose count
    an [int] holds, [finished] stays unset over every sequence of [step]
    calls made at times (doubles) in [0, computeMaxTime()), and once set it
    stays set over every sequence of [step] calls, whatever their times. *)
Theorem finished_lifecycle :
  forall (scheme : R -> Vector3d -> Vector2d -> Vector3d) (c : LyapController),
    (forall (us : list Vector2d) (ps : list Vector3d),
       fits_int (length us) -> fits_int (length ps) ->
       finished (snd (copyTrajectory (map v2_0 us) (map v2_1 us)
                        (map v3_0 ps) (map v3_1 ps) (map v3_2 ps) c)) = false) /\
    (fits_int (length (u_desired c)) ->
     finished (snd (generateTrajectory scheme c)) = false) /\
    (forall (pose : Vector3d) (u : Vector2d) (out : list string),
       fst (computeLaw pose (mkFrame c u out)) = Normal tt ->
       fst (step pose (mkFrame c u out)) = Normal tt /\
       (finished (this (snd (step pose (mkFrame c u out)))) = true <->
        finished c = true \/
        current_time c >= double_mul (getStepTime (RobotModel c))
                                     (double_of_size (length (pose_desired c))))) /\
    (forall (pose : Vector3d) (u : Vector2d) (out : list string) (e : exception),
       fst (computeLaw pose (mkFrame c u out)) = Throw e ->
       fst (step pose (mkFrame c u out)) = Throw e /\
       finished (this (snd (step pose (mkFrame c u out)))) = finished c) /\
    (forall calls : list call,
       0 < getStepTime (RobotModel c) ->
       fits_int (length (pose_desired c)) ->
       finished c = false ->
       Forall (fun k => is_double (call_time k) /\
                        0 <= call_time k
                        < double_mul (getStepTime (RobotModel c))
                                     (double_of_size (length (pose_desired c)))) calls ->
       exists c' : LyapController, drive calls c = Some c' /\ finished c' = false) /\
    (forall calls : list call,
       finished c = true ->
       exists c' : LyapController, drive calls c = Some c' /\ finished c' = true).
Proof.
  intros scheme c.
  split; [|split; [|split; [|split; [|split]]]].
  - intros us ps Hus Hps. now rewrite copyTrajectory_samples.
  - intros Hfit.
    destruct (generateTrajectory_result scheme c Hfit) as (c' & Hg & _ & _ & _ & _ & Hf).
    now rewrite Hg.
  - intros pose u out Hn. split.
    + now rewrite step_outcome, Hn.
    + now apply (step_finished_normal pose (mkFrame c u out)).
  - intros pose u out e Ht.
    now apply (step_finished_throw pose (mkFrame c u out)).
  - intros calls. apply drive_before_end.
  - intros calls. apply drive_latched.
Qed.

Lemma finished_lifecycle_witness :
  let us := [Vec2 1 0; Vec2 1 0; Vec2 1 0; Vec2 1 0; Vec2 1 0;
             Vec2 1 0; Vec2 1 0; Vec2 1 0; Vec2 1 0; Vec2 1 0] in
  let ps := [Vector3d_Zero; Vec3 1 0 0; Vec3 2 0 0; Vec3 3 0 0; Vec3 4 0 0;
             Vec3 5 0 0; Vec3 6 0 0; Vec3 7 0 0; Vec3 8 0 0; Vec3 9 0 0] in
  let c := tenth_controller false 0 us ps in
  (exists c' : LyapController,
     drive [mkCall 0 Vector3d_Zero; mkCall (1 / 2) (Vec3 5 0 0)] c = Some c' /\
     finished c' = false) /\
  (exists c' : LyapController,
     drive [mkCall 2 (Vec3 2 0 0); mkCall 0 Vector3d_Zero] (set_finished true c) = Some c' /\
     finished c' = true).
Proof.
  intros us ps c.
  assert (Hmax : double_mul (getStepTime (RobotModel c))
                            (double_of_size (length (pose_desired c))) = 1).
  { destruct (end_reached_at_one us ps eq_refl) as [H _]. exact H. }
  split.
  - apply (finished_lifecycle (fun _ p _ => p) c).
    + cbn. unfold tenth. lra.
    + unfold fits_int, INT_MAX. cbn. lia.
    + reflexivity.
    + rewrite Hmax. repeat constructor; cbn [call_time];
        try apply is_double_0; try apply is_double_half; lra.
  - apply (finished_lifecycle (fun _ p _ => p) (set_finished true c)).
    reflexivity.
Defined.

(** C5 as stated fails.  (1) A controller fresh from the constructor on
    which [copyTrajectory] has loaded empty arrays holds n = 0 poses, has
    [finished] unset and current_time = 0 >= n dt; [step] throws
    DESIRED_TRAJECTORY_INCOMPLETE and [finished] is still unset.  (2) With
    three poses, one input, step time 1 and current_time = 5 >= 3, [step]
    throws [out_of_range] from the input lookup and [finished] is still
    unset.  In both the test after the control computation is not reached,
    and in both n dt is computed without rounding. *)
Lemma finished_lifecycle_counterexample :
  let c0 := snd (copyTrajectory [] [] [] [] [] (LyapController_ctor 1 1 1 Vector3d_Zero)) in
  let c3 := sample_controller false 5 [Vec2 1 0] [Vector3d_Zero; Vec3 1 0 0; Vec3 2 0 0] in
  (finished c0 = false /\ computeMaxTime c0 = 1 * 0 /\ current_time c0 >= computeMaxTime c0 /\
   fst (step Vector3d_Zero (mkFrame c0 Vector2d_Zero [])) = Throw DESIRED_TRAJECTORY_INCOMPLETE /\
   finished (this (snd (step Vector3d_Zero (mkFrame c0 Vector2d_Zero [])))) = false) /\
  (finished c3 = false /\ computeMaxTime c3 = 1 * 3 /\ current_time c3 >= computeMaxTime c3 /\
   fst (step Vector3d_Zero (mkFrame c3 Vector2d_Zero [])) = Throw out_of_range /\
   finished (this (snd (step Vector3d_Zero (mkFrame c3 Vector2d_Zero [])))) = false).
Proof.
  intros c0 c3. split.
  - assert (H0 : fits_int 0) by (unfold fits_int, INT_MAX; lia).
    pose proof (copyTrajectory_samples (LyapController_ctor 1 1 1 Vector3d_Zero) [] [] H0 H0) as E.
    cbn [map] in E.
    assert (Hc0 : c0 = snd (copyTrajectory [] [] [] [] [] (LyapController_ctor 1 1 1 Vector3d_Zero)))
      by reflexivity.
    rewrite E in Hc0. cbn [snd] in Hc0.
    assert (Hlaw : computeLaw Vector3d_Zero (mkFrame c0 Vector2d_Zero [])
                   = (Throw DESIRED_TRAJECTORY_INCOMPLETE, mkFrame c0 Vector2d_Zero [])).
    { apply computeLaw_empty. left. rewrite Hc0. reflexivity. }
    assert (Hmax : computeMaxTime c0 = 0).
    { rewrite computeMaxTime_unit_step; rewrite Hc0; [reflexivity|reflexivity|exact H0]. }
    split; [rewrite Hc0; reflexivity|].
    split; [rewrite Hmax; lra|].
    split; [rewrite Hmax, Hc0; cbn; lra|].
    rewrite step_outcome, step_this, Hlaw. cbn [fst snd this].
    split; [reflexivity|]. rewrite Hc0. reflexivity.
  - assert (Hfit : fits_int (length (pose_desired c3))) by (unfold fits_int, INT_MAX; cbn; lia).
    assert (Hidx : getIndexIntegerBasedOnTime c3 5 = Normal 2%Z).
    { rewrite (getIndexIntegerBasedOnTime_unit_step c3 5); try reflexivity.
      - unfold INT_MIN, INT_MAX. lia.
      - exact Hfit. }
    assert (Hlaw : computeLaw Vector3d_Zero (mkFrame c3 Vector2d_Zero [])
                   = (Throw out_of_range, mkFrame c3 Vector2d_Zero [])).
    { rewrite computeLaw_tracking; try discriminate; try reflexivity.
      unfold getControlInputDesiredOnTime. cbn [current_time c3 sample_controller].
      rewrite Hidx. reflexivity. }
    assert (Hmax : computeMaxTime c3 = 3).
    { rewrite computeMaxTime_unit_step; [cbn; lra|reflexivity|exact Hfit]. }
    split; [reflexivity|].
    split; [rewrite Hmax; lra|].
    split; [rewrite Hmax; cbn; lra|].
    rewrite step_outcome, step_this, Hlaw. cbn [fst snd this].
    split; reflexivity.
Qed.

(** * Further properties of the code *)

(** ** Polar form of the position error *)

Lemma hypot_factor (x y : R) :
  x <> 0 -> sqrt (x * x + y * y) = Rabs x * sqrt (1 + (y / x)²).
Proof.
  intros Hx.
  replace (x * x + y * y) with (Rsqr x * (1 + (y / x)²)) by (unfold Rsqr; field; exact Hx).
  rewrite sqrt_mult_alt by apply Rle_0_sqr.
  now rewrite sqrt_Rsqr_abs.
Qed.

Lemma hypot_unit_pos (z : R) : 0 < sqrt (1 + z²).
Proof. apply sqrt_lt_R0. pose proof (Rle_0_sqr z). lra. Qed.

(** [atan2 y x] is the angle of the point (x, y): the point is its distance
    from the origin times (cos, sin) of that angle. *)
Lemma atan2_polar (y x : R) :
  sqrt (x * x + y * y) * cos (atan2 y x) = x /\
  sqrt (x * x + y * y) * sin (atan2 y x) = y.
Proof.
  unfold atan2.
  destruct (Rlt_dec 0 x) as [Hpos|Hnpos].
  - pose proof (hypot_unit_pos (y / x)) as Hr.
    rewrite hypot_factor, cos_atan, sin_atan, Rabs_pos_eq by lra.
    split; field; lra.
  - destruct (Rlt_dec x 0) as [Hneg|Hnneg].
    + pose proof (hypot_unit_pos (y / x)) as Hr.
      rewrite hypot_factor, Rabs_left by lra.
      destruct (Rle_dec 0 y).
      * rewrite neg_cos, neg_sin, cos_atan, sin_atan. split; field; lra.
      * rewrite cos_minus, sin_minus, cos_PI, sin_PI, cos_atan, sin_atan.
        split; field; lra.
    + assert (Hx : x = 0) by lra. subst x.
      replace (0 * 0 + y * y) with (Rsqr y) by (unfold Rsqr; ring).
      rewrite sqrt_Rsqr_abs.
      destruct (Rlt_dec 0 y) as [Hy|Hy].
      * rewrite cos_PI2, sin_PI2, Rabs_pos_eq by lra. split; ring.
      * destruct (Rlt_dec y 0) as [Hy'|Hy'].
        -- rewrite cos_neg, sin_neg, cos_PI2, sin_PI2, Rabs_left by lra. split; ring.
        -- assert (y = 0) by lra. subst y. rewrite Rabs_R0. split; ring.
Qed.

Lemma atan2_origin : atan2 0 0 = 0.
Proof.
  unfold atan2.
  destruct (Rlt_dec 0 0) as [H|_]; [lra|].
  destruct (Rlt_dec 0 0) as [H|_]; [lra|]. reflexivity.
Qed.

Lemma sin_between (z : R) : 0 < z -> - z < sin z < z.
Proof.
  intros Hz. split; [|now apply sin_lt_x].
  destruct (Rlt_dec z PI) as [Hlt|Hge].
  - pose proof (sin_gt_0 z Hz Hlt). lra.
  - pose proof (SIN_bound z). pose proof PI2_3_2. lra.
Qed.

Lemma sin_abs_le (z : R) : Rabs (sin z) <= Rabs z.
Proof.
  destruct (Rtotal_order 0 z) as [Hp|[Hz|Hn]].
  - rewrite (Rabs_pos_eq z) by lra. apply Rabs_le.
    pose proof (sin_between z Hp). lra.
  - subst z. rewrite sin_0. lra.
  - rewrite (Rabs_left z) by lra. apply Rabs_le.
    assert (Hp : 0 < - z) by lra.
    pose proof (sin_between (- z) Hp) as H. rewrite sin_neg in H. lra.
Qed.

Lemma sinc_abs_le (z : R) : Rabs (sinc z) <= 1.
Proof.
  unfold sinc. destruct (Req_dec_T z 0) as [_|Hz].
  - rewrite Rabs_R1. lra.
  - unfold Rdiv. rewrite Rabs_mult, Rabs_inv.
    apply Rmult_le_reg_r with (Rabs z); [apply Rabs_pos_lt; exact Hz|].
    rewrite Rmult_assoc, Rinv_l by (apply Rabs_no_R0; exact Hz).
    pose proof (sin_abs_le z). lra.
Qed.

Lemma angleWithinPI_0 : angleWithinPI 0 = 0.
Proof.
  unfold angleWithinPI. pose proof PI_gt_3 as Hpi.
  rewrite (Rceil_unique _ 0).
  - lra.
  - replace ((0 - PI) / (2 * PI)) with (- / 2) by (field; lra). lra.
Qed.

(** The command of [computeLaw] when both lookups return, in the terms of
    the control law. *)
Lemma computeLaw_law (c : LyapController) (pose : Vector3d) (u : Vector2d)
    (out : list string) (u_ref : Vector2d) (pose_ref : Vector3d) :
  finished c = false ->
  getControlInputDesiredOnTime c (current_time c) = Normal u_ref ->
  getPoseDesiredOnTime c (current_time c) = Normal pose_ref ->
  computeLaw pose (mkFrame c u out)
  = (Normal tt,
     mkFrame (set_errors (law_e_x pose pose_ref) (law_e_y pose pose_ref)
                         (law_e_theta pose pose_ref) c)
             (Vec2 (v2_0 u_ref + law_dv (Kp c) pose pose_ref)
                   (v2_1 u_ref + law_domega (Ktheta c) u_ref pose pose_ref))
             out).
Proof.
  intros Hf Hu Hp.
  rewrite computeLaw_tracking;
    eauto using lookup_input_nonempty, lookup_pose_nonempty.
  rewrite Hu, Hp. cbn zeta.
  unfold law_dv, law_domega, law_e_x, law_e_y, law_e_theta, Vector2d_plus. cbn.
  set (ex := v3_0 pose - v3_0 pose_ref).
  set (ey := v3_1 pose - v3_1 pose_ref).
  set (eth := angleWithinPI (v3_2 pose - v3_2 pose_ref)).
  replace (ex * (ex * 1) + ey * (ey * 1)) with (ex * ex + ey * ey) by ring.
  replace (eth * 0.5) with (eth / 2) by lra.
  replace ((v3_2 pose + v3_2 pose_ref) * 0.5) with ((v3_2 pose + v3_2 pose_ref) / 2) by lra.
  reflexivity.
Qed.

Lemma law_dv_projection (kp : R) (pose pose_ref : Vector3d) :
  law_dv kp pose pose_ref
  = - kp * (law_e_x pose pose_ref * cos (v3_2 pose)
            + law_e_y pose pose_ref * sin (v3_2 pose)).
Proof.
  unfold law_dv. cbn zeta.
  destruct (atan2_polar (law_e_y pose pose_ref) (law_e_x pose pose_ref)) as [Hc Hs].
  rewrite cos_minus.
  set (ex := law_e_x pose pose_ref) in *. set (ey := law_e_y pose pose_ref) in *.
  transitivity (- kp * (sqrt (ex * ex + ey * ey) * cos (atan2 ey ex) * cos (v3_2 pose)
                        + sqrt (ex * ex + ey * ey) * sin (atan2 ey ex) * sin (v3_2 pose))).
  - ring.
  - now rewrite Hc, Hs.
Qed.

(** ** The control law on a consistent store *)



(** X2: when the measured pose is the reference pose, [computeLaw] caches
    zero errors and emits the reference linear velocity unchanged, but its
    angular velocity is omega_ref + v_ref sin(theta): the command is the
    reference input only where v_ref sin(theta) = 0. *)
Theorem computeLaw_on_reference :
  forall (c : LyapController) (u : Vector2d) (out : list string)
         (u_ref : Vector2d) (pose_ref : Vector3d),
    finished c = false ->
    getControlInputDesiredOnTime c (current_time c) = Normal u_ref ->
    getPoseDesiredOnTime c (current_time c) = Normal pose_ref ->
    computeLaw pose_ref (mkFrame c u out)
    = (Normal tt,
       mkFrame (set_errors 0 0 0 c)
               (Vec2 (v2_0 u_ref) (v2_1 u_ref + v2_0 u_ref * sin (v3_2 pose_ref)))
               out).
Proof.
  intros c u out u_ref pose_ref Hf Hu Hp.
  rewrite (computeLaw_law c pose_ref u out u_ref pose_ref Hf Hu Hp).
  unfold law_dv, law_domega, law_e_x, law_e_y, law_e_theta. cbn zeta.
  replace (v3_0 pose_ref - v3_0 pose_ref) with 0 by ring.
  replace (v3_1 pose_ref - v3_1 pose_ref) with 0 by ring.
  replace (v3_2 pose_ref - v3_2 pose_ref) with 0 by ring.
  rewrite angleWithinPI_0, atan2_origin.
  replace (0 * 0 + 0 * 0) with 0 by ring. rewrite sqrt_0.
  replace (0 / 2) with 0 by lra. rewrite sinc_0.
  replace (0 - (v3_2 pose_ref + v3_2 pose_ref) / 2) with (- v3_2 pose_ref) by lra.
  rewrite sin_neg.
  do 2 f_equal. f_equal; ring.
Qed.

Lemma sample_lookups (u0 : Vector2d) (p0 : Vector3d) :
  getControlInputDesiredOnTime (sample_controller false 0 [u0] [p0]) 0 = Normal u0 /\
  getPoseDesiredOnTime (sample_controller false 0 [u0] [p0]) 0 = Normal p0.
Proof.
  assert (Hidx : getIndexIntegerBasedOnTime (sample_controller false 0 [u0] [p0]) 0
                 = Normal 0%Z).
  { rewrite (getIndexIntegerBasedOnTime_unit_step _ 0).
    - reflexivity.
    - reflexivity.
    - unfold INT_MIN, INT_MAX. lia.
    - unfold fits_int, INT_MAX. cbn. lia. }
  unfold getControlInputDesiredOnTime, getPoseDesiredOnTime. rewrite Hidx. split; reflexivity.
Qed.

Lemma computeLaw_on_reference_witness :
  let c := sample_controller false 0 [Vec2 1 0] [Vec3 1 2 3] in
  u_out (snd (computeLaw (Vec3 1 2 3) (mkFrame c (Vec2 5 5) [])))
  = Vec2 1 (0 + 1 * sin 3).
Proof.
  intros c.
  destruct (sample_lookups (Vec2 1 0) (Vec3 1 2 3)) as [Hu Hp].
  rewrite (computeLaw_on_reference c (Vec2 5 5) [] (Vec2 1 0) (Vec3 1 2 3) eq_refl Hu Hp).
  reflexivity.
Defined.

(** X3: the linear correction is the position error projected on the
    heading of the robot: whenever [computeLaw] tracks, with references
    u_ref and pose_ref, v_out = v_ref - Kp ((x - x_ref) cos(theta)
    + (y - y_ref) sin(theta)); the bearing psi of the error cancels out. *)
Theorem linear_command_projection :
  forall (c : LyapController) (pose : Vector3d) (u : Vector2d) (out : list string)
         (u_ref : Vector2d) (pose_ref : Vector3d),
    finished c = false ->
    getControlInputDesiredOnTime c (current_time c) = Normal u_ref ->
    getPoseDesiredOnTime c (current_time c) = Normal pose_ref ->
    v2_0 (u_out (snd (computeLaw pose (mkFrame c u out))))
    = v2_0 u_ref
      - Kp c * ((v3_0 pose - v3_0 pose_ref) * cos (v3_2 pose)
                + (v3_1 pose - v3_1 pose_ref) * sin (v3_2 pose)).
Proof.
  intros c pose u out u_ref pose_ref Hf Hu Hp.
  rewrite (computeLaw_law c pose u out u_ref pose_ref Hf Hu Hp). cbn.
  rewrite law_dv_projection. unfold law_e_x, law_e_y. ring.
Qed.

Lemma linear_command_projection_witness :
  let c := sample_controller false 0 [Vec2 1 0] [Vec3 1 2 3] in
  v2_0 (u_out (snd (computeLaw (Vec3 4 6 0) (mkFrame c (Vec2 5 5) []))))
  = 1 - Kp c * ((4 - 1) * cos 0 + (6 - 2) * sin 0).
Proof.
  intros c.
  destruct (sample_lookups (Vec2 1 0) (Vec3 1 2 3)) as [Hu Hp].
  exact (linear_command_projection c (Vec3 4 6 0) (Vec2 5 5) [] (Vec2 1 0) (Vec3 1 2 3)
           eq_refl Hu Hp).
Defined.

(** X4: the corrections are bounded: whenever [computeLaw] tracks,
    |v_out - v_ref| <= |Kp| times the distance to the reference position,
    and |omega_out - omega_ref| <= |Ktheta| PI + |v_ref|. *)
Theorem command_correction_bounds :
  forall (c : LyapController) (pose : Vector3d) (u : Vector2d) (out : list string)
         (u_ref : Vector2d) (pose_ref : Vector3d),
    finished c = false ->
    getControlInputDesiredOnTime c (current_time c) = Normal u_ref ->
    getPoseDesiredOnTime c (current_time c) = Normal pose_ref ->
    let cmd := u_out (snd (computeLaw pose (mkFrame c u out))) in
    Rabs (v2_0 cmd - v2_0 u_ref) <= Rabs (Kp c) * distance pose pose_ref /\
    Rabs (v2_1 cmd - v2_1 u_ref) <= Rabs (Ktheta c) * PI + Rabs (v2_0 u_ref).
Proof.
  intros c pose u out u_ref pose_ref Hf Hu Hp cmd. subst cmd.
  rewrite (computeLaw_law c pose u out u_ref pose_ref Hf Hu Hp). cbn.
  split.
  - replace (v2_0 u_ref + law_dv (Kp c) pose pose_ref - v2_0 u_ref)
      with (law_dv (Kp c) pose pose_ref) by ring.
    unfold law_dv, distance, law_e_x, law_e_y. cbn zeta.
    set (d := sqrt _). set (a := cos _).
    assert (Hd : 0 <= d) by apply sqrt_pos.
    assert (Ha : Rabs a <= 1) by (apply Rabs_le; apply COS_bound).
    rewrite !Rabs_mult, Rabs_Ropp, (Rabs_pos_eq d Hd).
    pose proof (Rabs_pos (Kp c)) as Hk.
    assert (H : Rabs (Kp c) * d * Rabs a <= Rabs (Kp c) * d * 1).
    { apply Rmult_le_compat_l; [apply Rmult_le_pos; assumption|exact Ha]. }
    lra.
  - replace (v2_1 u_ref + law_domega (Ktheta c) u_ref pose pose_ref - v2_1 u_ref)
      with (law_domega (Ktheta c) u_ref pose pose_ref) by ring.
    unfold law_domega. cbn zeta.
    set (eth := law_e_theta pose pose_ref). set (sc := sinc _). set (sn := sin _).
    assert (Heth : Rabs eth <= PI).
    { apply Rabs_le. pose proof (angleWithinPI_range (v3_2 pose - v3_2 pose_ref)) as H.
      unfold eth, law_e_theta. lra. }
    assert (Hsc : Rabs sc <= 1) by apply sinc_abs_le.
    assert (Hsn : Rabs sn <= 1) by (apply Rabs_le; apply SIN_bound).
    pose proof (Rabs_pos (Ktheta c)) as Hk. pose proof (Rabs_pos (v2_0 u_ref)) as Hv.
    pose proof (Rabs_pos sc) as Hsc0. pose proof (Rabs_pos sn) as Hsn0.
    unfold Rminus.
    eapply Rle_trans; [apply Rabs_triang|].
    rewrite Rabs_Ropp, !Rabs_mult, Rabs_Ropp.
    assert (H1 : Rabs (Ktheta c) * Rabs eth <= Rabs (Ktheta c) * PI)
      by (apply Rmult_le_compat_l; assumption).
    assert (H2 : Rabs sc * Rabs sn <= 1) by nra.
    assert (H3 : Rabs (v2_0 u_ref) * (Rabs sc * Rabs sn) <= Rabs (v2_0 u_ref) * 1)
      by (apply Rmult_le_compat_l; assumption).
    lra.
Qed.

Lemma command_correction_bounds_witness :
  let c := sample_controller false 0 [Vec2 1 0] [Vec3 1 2 3] in
  let cmd := u_out (snd (computeLaw (Vec3 4 6 0) (mkFrame c (Vec2 5 5) []))) in
  Rabs (v2_0 cmd - 1) <= Rabs (Kp c) * distance (Vec3 4 6 0) (Vec3 1 2 3) /\
  Rabs (v2_1 cmd - 0) <= Rabs (Ktheta c) * PI + Rabs 1.
Proof.
  intros c.
  destruct (sample_lookups (Vec2 1 0) (Vec3 1 2 3)) as [Hu Hp].
  exact (command_correction_bounds c (Vec3 4 6 0) (Vec2 5 5) [] (Vec2 1 0) (Vec3 1 2 3)
           eq_refl Hu Hp).
Defined.

(** ** The index of a time *)

Lemma Zround_nonpos (x : R) : x <= 0 -> (Zround x <= 0)%Z.
Proof.
  intros Hx. unfold Zround. destruct (Rle_dec 0 x) as [H0|Hneg].
  - assert (x = 0) by lra. subst x.
    rewrite (Int_part_unique (0 + / 2) 0); [lia|lra].
  - assert (H : (Int_part (IZR 0) <= Int_part (- x + / 2))%Z) by (apply Int_part_mono; lra).
    rewrite Int_part_IZR in H. lia.
Qed.

Lemma Zround_mono (x y : R) : x <= y -> (Zround x <= Zround y)%Z.
Proof.
  intros Hxy.
  destruct (Rle_dec 0 x) as [Hx|Hx].
  - unfold Zround. destruct (Rle_dec 0 x) as [_|F]; [|contradiction].
    destruct (Rle_dec 0 y) as [_|F]; [|lra].
    apply Int_part_mono. lra.
  - destruct (Rle_dec 0 y) as [Hy|Hy].
    + pose proof (Zround_nonpos x ltac:(lra)). pose proof (Zround_nonneg y Hy). lia.
    + unfold Zround. destruct (Rle_dec 0 x) as [F|_]; [contradiction|].
      destruct (Rle_dec 0 y) as [F|_]; [contradiction|].
      assert (H : (Int_part (- y + / 2) <= Int_part (- x + / 2))%Z)
        by (apply Int_part_mono; lra).
      lia.
Qed.

Lemma Zround_below_half (x : R) : x <= - / 2 -> (Zround x <= -1)%Z.
Proof.
  intros Hx. unfold Zround. destruct (Rle_dec 0 x) as [F|_]; [lra|].
  assert (H : (Int_part (IZR 1) <= Int_part (- x + / 2))%Z) by (apply Int_part_mono; lra).
  rewrite Int_part_IZR in H. lia.
Qed.


(** X5: the lookups take the nearest sample, by the double quotient: for a
    positive step time dt, a sample k below the pose count n and a time
    t >= 0 with (k - 1/2) dt <= t < (k + 1/2) dt, the double quotient q of t
    and dt lies in [k - 1/2, k + 1/2]; the index is k when q < k + 1/2, and
    it is the next one, min (k + 1, n - 1), when the quotient rounds to
    q = k + 1/2 (step time 0.1, t = 0.25: q = 2.5 and the index is 3); the
    pose lookup returns the stored pose of that index; at t = k dt the
    index is k. *)
Theorem nearest_sample :
  forall (c : LyapController) (t : R) (k : nat) (d3 : Vector3d),
    0 < getStepTime (RobotModel c) ->
    fits_int (length (pose_desired c)) ->
    (k < length (pose_desired c))%nat ->
    0 <= t ->
    (INR k - / 2) * getStepTime (RobotModel c) <= t
    < (INR k + / 2) * getStepTime (RobotModel c) ->
    let q := double_div t (getStepTime (RobotModel c)) in
    let index := if Rlt_dec q (INR k + / 2) then Z.of_nat k
                 else Z.min (Z.of_nat k + 1) (Z.of_nat (length (pose_desired c)) - 1) in
    INR k - / 2 <= q <= INR k + / 2 /\
    getIndexIntegerBasedOnTime c t = Normal index /\
    getPoseDesiredOnTime c t = Normal (nth (Z.to_nat index) (pose_desired c) d3) /\
    (t = getStepTime (RobotModel c) * INR k -> index = Z.of_nat k).
Proof.
  intros c t k d3 Hdt Hfit Hk Ht [Hlo Hhi] q index.
  set (dt := getStepTime (RobotModel c)) in *.
  assert (Hk53 : (Z.of_nat k < 2147483647)%Z) by (unfold fits_int, INT_MAX in Hfit; lia).
  assert (Hq0 : 0 <= q) by (apply double_div_nonneg; assumption).
  assert (Hqlo : INR k - / 2 <= q).
  { replace (INR k - / 2) with (IZR (Z.of_nat k - 1) + / 2)
      by (rewrite minus_IZR, <- INR_IZR_INZ; lra).
    rewrite <- double_round_half by (change (2 ^ 53)%Z with 9007199254740992%Z; lia).
    apply double_round_mono. apply quotient_ge; [exact Hdt|].
    rewrite minus_IZR, <- INR_IZR_INZ. lra. }
  assert (Hqhi : q <= INR k + / 2).
  { rewrite INR_IZR_INZ.
    rewrite <- double_round_half by (change (2 ^ 53)%Z with 9007199254740992%Z; lia).
    apply double_round_mono. apply quotient_le; [exact Hdt|].
    rewrite <- INR_IZR_INZ. lra. }
  assert (Hr : Zround q = if Rlt_dec q (INR k + / 2) then Z.of_nat k else (Z.of_nat k + 1)%Z).
  { destruct (Rlt_dec q (INR k + / 2)) as [L|G].
    - apply Zround_half_open; [exact Hq0|]. rewrite <- INR_IZR_INZ. lra.
    - apply Zround_half_open; [exact Hq0|]. rewrite plus_IZR, <- INR_IZR_INZ. lra. }
  assert (Hidx : getIndexIntegerBasedOnTime c t = Normal index).
  { rewrite getIndexIntegerBasedOnTime_defined; fold dt; fold q; try assumption.
    - rewrite Hr. unfold index. f_equal.
      destruct (Rlt_dec q (INR k + / 2)) as [L|G].
      + destruct (Z.of_nat (length (pose_desired c)) <=? Z.of_nat k)%Z eqn:E; [|reflexivity].
        apply Z.leb_le in E. lia.
      + destruct (Z.of_nat (length (pose_desired c)) <=? Z.of_nat k + 1)%Z eqn:E.
        * apply Z.leb_le in E. lia.
        * apply Z.leb_gt in E. lia.
    - lra.
    - rewrite Hr. unfold INT_MIN, INT_MAX.
      destruct (Rlt_dec q (INR k + / 2)); lia. }
  assert (Hrange : (0 <= index < Z.of_nat (length (pose_desired c)))%Z).
  { unfold index. destruct (Rlt_dec q (INR k + / 2)); lia. }
  split; [split; assumption|]. split; [exact Hidx|]. split.
  - unfold getPoseDesiredOnTime. rewrite Hidx. cbn [obind].
    now apply vector_at_nth.
  - intros Hs. unfold index.
    destruct (Rlt_dec q (INR k + / 2)) as [L|G]; [reflexivity|].
    exfalso. apply G. unfold q. rewrite Hs.
    rewrite double_div_sample; [lra|lra|unfold fits_int in *; lia].
Qed.

Lemma nearest_sample_witness :
  let c := tenth_controller false 0 [] [Vector3d_Zero; Vec3 1 0 0; Vec3 2 0 0; Vec3 3 0 0] in
  double_div (1 / 4) (getStepTime (RobotModel c)) = 5 / 2 /\
  getPoseDesiredOnTime c (1 / 4) = Normal (nth 3 (pose_desired c) Vector3d_Zero).
Proof.
  intros c.
  assert (Hq : double_div (1 / 4) (getStepTime (RobotModel c)) = 5 / 2)
    by exact quotient_quarter_tenth.
  split; [exact Hq|].
  destruct (nearest_sample c (1 / 4) 2 Vector3d_Zero) as (_ & _ & Hpose & _).
  - cbn. unfold tenth. lra.
  - unfold fits_int, INT_MAX. cbn. lia.
  - cbn. lia.
  - lra.
  - cbn. unfold tenth. lra.
  - rewrite Hq in Hpose.
    destruct (Rlt_dec (5 / 2) (INR 2 + / 2)) as [L|_]; [cbn in L; lra|].
    exact Hpose.
Defined.

(** X6: negative times are not clamped: for a positive step time and a time
    t <= - dt / 2 (whose rounded double quotient is an [int]) the index is
    negative, both lookups throw [out_of_range], and [computeLaw] at such a
    [current_time], with both sequences non-empty and [finished] unset, ends
    by that exception with nothing written. *)
Theorem negative_time_out_of_range :
  forall (c : LyapController) (pose : Vector3d) (u : Vector2d) (out : list string),
    0 < getStepTime (RobotModel c) ->
    fits_int (length (pose_desired c)) ->
    current_time c <= - (getStepTime (RobotModel c) / 2) ->
    (INT_MIN <= Zround (double_div (current_time c) (getStepTime (RobotModel c))))%Z ->
    (exists index : Z,
       getIndexIntegerBasedOnTime c (current_time c) = Normal index /\ (index < 0)%Z) /\
    getPoseDesiredOnTime c (current_time c) = Throw out_of_range /\
    getControlInputDesiredOnTime c (current_time c) = Throw out_of_range /\
    (u_desired c <> [] -> pose_desired c <> [] -> finished c = false ->
     computeLaw pose (mkFrame c u out) = (Throw out_of_range, mkFrame c u out)).
Proof.
  intros c pose u out Hdt Hfit Ht Hmin.
  set (dt := getStepTime (RobotModel c)) in *.
  assert (Hneg : (Zround (double_div (current_time c) dt) <= -1)%Z).
  { apply Zround_below_half.
    replace (- / 2) with (IZR (-1) + / 2) by lra.
    rewrite <- double_round_half by (cbn; lia).
    apply double_round_mono. apply quotient_le; [exact Hdt|]. lra. }
  assert (Hidx : getIndexIntegerBasedOnTime c (current_time c)
                 = Normal (Zround (double_div (current_time c) dt))).
  { rewrite getIndexIntegerBasedOnTime_defined; fold dt; try assumption.
    - destruct (Z.of_nat (length (pose_desired c)) <=? Zround (double_div (current_time c) dt))%Z eqn:E;
        [|reflexivity].
      apply Z.leb_le in E. lia.
    - lra.
    - unfold INT_MAX. lia. }
  assert (Hp : getPoseDesiredOnTime c (current_time c) = Throw out_of_range).
  { unfold getPoseDesiredOnTime. rewrite Hidx. cbn [obind]. apply vector_at_negative. lia. }
  assert (Hu : getControlInputDesiredOnTime c (current_time c) = Throw out_of_range).
  { unfold getControlInputDesiredOnTime. rewrite Hidx. cbn [obind].
    apply vector_at_negative. lia. }
  split; [|split; [exact Hp|split; [exact Hu|]]].
  - eexists. split; [exact Hidx|lia].
  - intros Hne Hpe Hf. rewrite computeLaw_tracking by assumption. now rewrite Hu.
Qed.

Lemma negative_time_out_of_range_witness :
  let c := sample_controller false (-1) [Vec2 1 0] [Vector3d_Zero] in
  computeLaw Vector3d_Zero (mkFrame c (Vec2 5 5) [])
  = (Throw out_of_range, mkFrame c (Vec2 5 5) []).
Proof.
  intros c.
  apply (negative_time_out_of_range c Vector3d_Zero (Vec2 5 5) []).
  - cbn. lra.
  - unfold fits_int, INT_MAX. cbn. lia.
  - cbn. lra.
  - cbn. rewrite (Zround_double_div_unit (-1)); unfold INT_MIN, INT_MAX; lia.
  - discriminate.
  - discriminate.
  - reflexivity.
Defined.

(** X7: the index does not go back in time: for a positive step time and
    times t1 <= t2 whose rounded double quotients are [int]s, both indices are
    defined and the index of t1 is at most the index of t2. *)
Theorem index_monotone :
  forall (c : LyapController) (t1 t2 : R),
    0 < getStepTime (RobotModel c) ->
    fits_int (length (pose_desired c)) ->
    t1 <= t2 ->
    (INT_MIN <= Zround (double_div t1 (getStepTime (RobotModel c))))%Z ->
    (Zround (double_div t2 (getStepTime (RobotModel c))) <= INT_MAX)%Z ->
    exists i1 i2 : Z,
      getIndexIntegerBasedOnTime c t1 = Normal i1 /\
      getIndexIntegerBasedOnTime c t2 = Normal i2 /\
      (i1 <= i2)%Z.
Proof.
  intros c t1 t2 Hdt Hfit Ht Hmin Hmax.
  set (dt := getStepTime (RobotModel c)) in *.
  pose proof (Zround_mono _ _ (double_div_mono t1 t2 dt Hdt Ht)) as Hmono.
  do 2 eexists. split; [|split].
  - apply getIndexIntegerBasedOnTime_defined; fold dt; [lra|lia|exact Hfit].
  - apply getIndexIntegerBasedOnTime_defined; fold dt; [lra|lia|exact Hfit].
  - fold dt.
    destruct (Z.of_nat (length (pose_desired c)) <=? Zround (double_div t1 dt))%Z eqn:E1;
      destruct (Z.of_nat (length (pose_desired c)) <=? Zround (double_div t2 dt))%Z eqn:E2;
      try apply Z.leb_le in E1; try apply Z.leb_le in E2;
      try apply Z.leb_gt in E1; try apply Z.leb_gt in E2; lia.
Qed.

Lemma index_monotone_witness :
  let c := sample_controller false 0 [] [Vector3d_Zero; Vec3 1 0 0; Vec3 2 0 0] in
  exists i1 i2 : Z,
    getIndexIntegerBasedOnTime c 1 = Normal i1 /\
    getIndexIntegerBasedOnTime c 7 = Normal i2 /\ (i1 <= i2)%Z.
Proof.
  intros c.
  apply (index_monotone c 1 7).
  - cbn. lra.
  - unfold fits_int, INT_MAX. cbn. lia.
  - lra.
  - cbn. rewrite (Zround_double_div_unit 1); unfold INT_MIN, INT_MAX; lia.
  - cbn. rewrite (Zround_double_div_unit 7); unfold INT_MIN, INT_MAX; lia.
Defined.

(** ** The fraction of a step *)



(** ** Loading, whatever the arrays *)

Lemma grown_from_refl (c : LyapController) : grown_from c c.
Proof.
  unfold grown_from. repeat split; try reflexivity; exists []; now rewrite app_nil_r.
Qed.

Lemma grown_from_trans (a b c : LyapController) :
  grown_from a b -> grown_from b c -> grown_from a c.
Proof.
  intros (A1 & A2 & A3 & A4 & A5 & A6 & A7 & A8 & [ua Hua] & [pa Hpa])
         (B1 & B2 & B3 & B4 & B5 & B6 & B7 & B8 & [ub Hub] & [pb Hpb]).
  unfold grown_from. repeat split; try congruence.
  - exists (ua ++ ub). now rewrite Hub, Hua, app_assoc.
  - exists (pa ++ pb). now rewrite Hpb, Hpa, app_assoc.
Qed.

Lemma appended_only_refl (c : LyapController) : appended_only c c.
Proof. unfold appended_only. auto using grown_from_refl. Qed.

Lemma appended_only_trans (a b c : LyapController) :
  appended_only a b -> appended_only b c -> appended_only a c.
Proof.
  intros (A & A1 & A2 & A3) (B & B1 & B2 & B3). unfold appended_only.
  split; [eapply grown_from_trans; eassumption|].
  repeat split; congruence.
Qed.

Lemma addToInputDesired_appended (v omega : R) (c : LyapController) :
  appended_only c (snd (addToInputDesired v omega c)).
Proof.
  unfold appended_only, grown_from. cbn. repeat split; try reflexivity.
  - now exists [Vec2 v omega].
  - exists []. now rewrite app_nil_r.
Qed.

Lemma addStateDesired_appended (p : Vector3d) (c : LyapController) :
  appended_only c (snd (addStateDesired p c)).
Proof.
  unfold appended_only, grown_from. cbn. repeat split; try reflexivity.
  - exists []. now rewrite app_nil_r.
  - now exists [p].
Qed.

(** A loop keeps what each run of its body keeps, however it ends. *)
Lemma for_loop_preserves {St : Type} (P : St -> St -> Prop) (body : Z -> M St unit) :
  (forall s, P s s) ->
  (forall a b c, P a b -> P b c -> P a c) ->
  (forall i s, P s (snd (body i s))) ->
  forall (count : nat) (i : Z) (s : St), P s (snd (for_loop count i body s)).
Proof.
  intros Hrefl Htrans Hbody. induction count as [|k IH]; intros i s.
  - apply Hrefl.
  - cbn [for_loop]. unfold bind. specialize (Hbody i s).
    destruct (body i s) as [[a|e|] s']; cbn [snd] in *; try exact Hbody.
    eapply Htrans; [exact Hbody|apply IH].
Qed.

(** A loop ends as one run of its body ended, or normally. *)
Lemma for_loop_outcome {St : Type} (Q : outcome unit -> Prop) (body : Z -> M St unit) :
  Q (Normal tt) ->
  (forall i s, Q (fst (body i s))) ->
  forall (count : nat) (i : Z) (s : St), Q (fst (for_loop count i body s)).
Proof.
  intros Hend Hbody. induction count as [|k IH]; intros i s.
  - exact Hend.
  - cbn [for_loop]. unfold bind. specialize (Hbody i s).
    destruct (body i s) as [[a|e|] s']; cbn [fst] in *; [apply IH|exact Hbody|exact Hbody].
Qed.

(** Returning or throwing [out_of_range]: how a call that only reads
    vectors by [at] and appends can end. *)
Lemma vector_at_outcome {A : Type} (l : list A) (i : Z) :
  (exists a, vector_at l i = Normal a) \/ vector_at l i = Throw out_of_range.
Proof.
  unfold vector_at. destruct (i <? 0)%Z; [now right|].
  destruct (nth_error l (Z.to_nat i)); [left; eauto|now right].
Qed.

Lemma copyTrajectory_inputs_body (v omega : list R) (i : Z) (s : LyapController) :
  let r := (v_i <- const_call (fun _ => vector_at v i) ;;
            omega_i <- const_call (fun _ => vector_at omega i) ;;
            addToInputDesired v_i omega_i)%cpp s in
  appended_only s (snd r) /\ (fst r = Normal tt \/ fst r = Throw out_of_range).
Proof.
  run_monad.
  destruct (vector_at_outcome v i) as [[a Ha]|Ha]; rewrite Ha; cbn;
    [|split; [apply appended_only_refl|now right]].
  destruct (vector_at_outcome omega i) as [[b Hb]|Hb]; rewrite Hb; cbn;
    [|split; [apply appended_only_refl|now right]].
  split; [apply (addToInputDesired_appended a b s)|now left].
Qed.

Lemma copyTrajectory_poses_body (x y theta : list R) (i : Z) (s : LyapController) :
  let r := (c <- get ;;
            let theta_offset := v3_2 (pose_offset c) in
            x_i <- const_call (fun _ => vector_at x i) ;;
            y_i <- const_call (fun _ => vector_at y i) ;;
            let x_with_offset :=
              v3_0 (pose_offset c) + (cos theta_offset * x_i - sin theta_offset * y_i) in
            let y_with_offset :=
              v3_1 (pose_offset c) + (sin theta_offset * x_i + cos theta_offset * y_i) in
            theta_i <- const_call (fun _ => vector_at theta i) ;;
            let theta_with_offset := theta_offset + theta_i in
            addStateDesired (Vec3 x_with_offset y_with_offset theta_with_offset))%cpp s in
  appended_only s (snd r) /\ (fst r = Normal tt \/ fst r = Throw out_of_range).
Proof.
  run_monad.
  destruct (vector_at_outcome x i) as [[a Ha]|Ha]; rewrite Ha; cbn;
    [|split; [apply appended_only_refl|now right]].
  destruct (vector_at_outcome y i) as [[b Hb]|Hb]; rewrite Hb; cbn;
    [|split; [apply appended_only_refl|now right]].
  destruct (vector_at_outcome theta i) as [[d Hd]|Hd]; rewrite Hd; cbn;
    [|split; [apply appended_only_refl|now right]].
  split; [|now left].
  match goal with |- appended_only s (set_pose_desired (_ ++ [?p]) s) =>
    apply (addStateDesired_appended p s) end.
Qed.

(** X9: whatever arrays [copyTrajectory] is given and however it ends, it
    only appends: what the two sequences held is a prefix of what they hold
    afterwards, and gains, clock, cached errors, offset and model are
    untouched.  It returns normally or throws [out_of_range]; when it
    throws, [finished] and [time_end] are as before the call (the load is
    left half done, not undone), and when it returns [finished] is unset
    and [time_end] is the step time times the pose count. *)
Theorem copyTrajectory_append_only :
  forall (v omega x y theta : list R) (c : LyapController),
    let r := copyTrajectory v omega x y theta c in
    grown_from c (snd r) /\
    RobotModel (snd r) = RobotModel c /\
    (fst r = Normal tt \/ fst r = Throw out_of_range) /\
    (fst r = Throw out_of_range ->
     finished (snd r) = finished c /\ time_end (snd r) = time_end c) /\
    (fst r = Normal tt ->
     finished (snd r) = false /\ time_end (snd r) = computeMaxTime (snd r)).
Proof.
  intros v omega x y theta c r.
  assert (Hr : r = copyTrajectory v omega x y theta c) by reflexivity.
  clearbody r. unfold copyTrajectory, for_int in Hr.
  set (body1 := fun i : Z => _) in Hr. set (n1 := Z.to_nat _) in Hr.
  unfold bind at 1 in Hr.
  assert (H1 : appended_only c (snd (for_loop n1 0%Z body1 c))).
  { apply for_loop_preserves;
      [apply appended_only_refl|apply appended_only_trans|].
    intros i s. apply (copyTrajectory_inputs_body v omega i s). }
  assert (O1 : fst (for_loop n1 0%Z body1 c) = Normal tt
               \/ fst (for_loop n1 0%Z body1 c) = Throw out_of_range).
  { apply (for_loop_outcome (fun o => o = Normal tt \/ o = Throw out_of_range));
      [now left|].
    intros i s. apply (copyTrajectory_inputs_body v omega i s). }
  destruct (for_loop n1 0%Z body1 c) as [o1 c1]. cbn [fst snd] in H1, O1.
  destruct O1 as [O1|O1]; subst o1.
  2:{ subst r. cbn [fst snd]. destruct H1 as (G & Hm & Hf & Ht).
      split; [exact G|]. split; [exact Hm|]. split; [now right|].
      split; [auto|discriminate]. }
  set (body2 := fun i : Z => _) in Hr. set (n2 := Z.to_nat _) in Hr.
  unfold bind at 1 in Hr.
  assert (H2 : appended_only c1 (snd (for_loop n2 0%Z body2 c1))).
  { apply for_loop_preserves;
      [apply appended_only_refl|apply appended_only_trans|].
    intros i s. apply (copyTrajectory_poses_body x y theta i s). }
  assert (O2 : fst (for_loop n2 0%Z body2 c1) = Normal tt
               \/ fst (for_loop n2 0%Z body2 c1) = Throw out_of_range).
  { apply (for_loop_outcome (fun o => o = Normal tt \/ o = Throw out_of_range));
      [now left|].
    intros i s. apply (copyTrajectory_poses_body x y theta i s). }
  destruct (for_loop n2 0%Z body2 c1) as [o2 c2]. cbn [fst snd] in H2, O2.
  pose proof (appended_only_trans _ _ _ H1 H2) as (G & Hm & Hf & Ht).
  destruct O2 as [O2|O2]; subst o2.
  2:{ subst r. cbn [fst snd]. split; [exact G|]. split; [exact Hm|]. split; [now right|].
      split; [auto|discriminate]. }
  subst r. run_monad.
  split; [|split; [exact Hm|split; [now left|split; [discriminate|auto]]]].
  destruct G as (G1 & G2 & G3 & G4 & G5 & G6 & G7 & G8 & G9 & G10).
  unfold grown_from. cbn. repeat split; assumption.
Qed.

Lemma copyTrajectory_append_only_witness :
  let c := sample_controller true 0 [Vec2 7 7] [] in
  let r := copyTrajectory [1; 2] [0] [] [] [] c in
  finished (snd r) = finished c /\ time_end (snd r) = time_end c.
Proof.
  intros c r.
  apply (copyTrajectory_append_only [1; 2] [0] [] [] [] c).
  reflexivity.
Defined.

(** ** Forward simulation *)

Lemma last_cons {A : Type} (a d : A) (l : list A) : last (a :: l) d = last l a.
Proof.
  revert a d. induction l as [|b l IH]; intros a d; [reflexivity|].
  change (last (a :: b :: l) d) with (last (b :: l) d).
  now rewrite (IH b d), (IH b a).
Qed.

Lemma last_app_cons {A : Type} (l r : list A) (a d : A) :
  last (l ++ a :: r) d = last r a.
Proof.
  induction l as [|b l IH]; cbn [app].
  - apply last_cons.
  - rewrite last_cons. rewrite <- IH. destruct l; cbn [app]; now rewrite !last_cons.
Qed.

Lemma int_of_size_le (n : nat) : (Z.to_nat (int_of_size n) <= n)%nat.
Proof.
  unfold int_of_size, INT_MAX.
  assert (H : (0 <= Z.of_nat n mod 4294967296 <= Z.of_nat n)%Z).
  { split; [apply Z.mod_pos_bound; lia|apply Z.mod_le; lia]. }
  destruct (Z.of_nat n mod 4294967296 <=? 2147483647)%Z; lia.
Qed.

Lemma controller_eta (c : LyapController) :
  set_pose_desired (pose_desired c)
    (set_RobotModel
       (mkUnicycleModel (model_state (RobotModel c)) (model_input (RobotModel c))
                        (model_dt (RobotModel c))) c) = c.
Proof. destruct c as [? ? ? ? ? ? ? [? ? ?] ? ? ? ?]. reflexivity. Qed.

(** The loop of [generateTrajectory] over its first [count] remaining
    inputs: the state it leaves. *)
Lemma generateTrajectory_loop_state (scheme : R -> Vector3d -> Vector2d -> Vector3d)
    (count : nat) :
  forall (done rest : list Vector2d) (c : LyapController),
    u_desired c = done ++ rest ->
    (count <= length rest)%nat ->
    let m := RobotModel c in
    let sim := simulate scheme (model_dt m) (model_state m) (firstn count rest) in
    for_loop count (Z.of_nat (length done))
      (fun i =>
         c <- get ;;
         u_i <- const_call (fun _ => vector_at (u_desired c) i) ;;
         pose_next <- integrateState scheme u_i ;;
         addStateDesired pose_next)%cpp c
    = (Normal tt,
       set_pose_desired (pose_desired c ++ sim)
         (set_RobotModel
            (mkUnicycleModel (last sim (model_state m))
                             (last (firstn count rest) (model_input m))
                             (model_dt m)) c)).
Proof.
  induction count as [|k IH]; intros done rest c Hu Hlen m sim.
  - cbn. unfold ret. subst sim m. cbn. now rewrite app_nil_r, controller_eta.
  - destruct rest as [|a rest]; [cbn in Hlen; lia|].
    cbn [for_loop]. unfold bind at 1. unfold bind at 1. unfold get at 1.
    unfold bind at 1. unfold const_call at 1.
    rewrite Hu, vector_at_app.
    unfold bind at 1. unfold integrateState at 1.
    unfold bind, get, ret, modify, const_call, addStateDesired.
    cbn -[last firstn simulate for_loop].
    replace (Z.of_nat (length done) + 1)%Z with (Z.of_nat (length (done ++ [a])))
      by (rewrite length_app; cbn; lia).
    rewrite (IH (done ++ [a]) rest).
    + subst sim m. rewrite firstn_cons.
      change (simulate scheme ?dt ?p (a :: ?l))
        with (scheme dt p a :: simulate scheme dt (scheme dt p a) l).
      rewrite !last_cons.
      unfold set_pose_desired, set_RobotModel. cbn -[last].
      rewrite <- app_assoc. reflexivity.
    + cbn. rewrite Hu, <- app_assoc. reflexivity.
    + cbn in Hlen. lia.
Qed.

(** The state [generateTrajectory] leaves. *)
Lemma generateTrajectory_state (scheme : R -> Vector3d -> Vector2d -> Vector3d)
    (c : LyapController) :
  let dt := getStepTime (RobotModel c) in
  let us := firstn (Z.to_nat (int_of_size (length (u_desired c)))) (u_desired c) in
  let sim := simulate scheme dt (pose_offset c) us in
  generateTrajectory scheme c
  = (Normal tt,
     set_finished false
       (set_time_end (double_mul dt (double_of_size (length (pose_desired c ++ sim))))
          (set_pose_desired (pose_desired c ++ sim)
             (set_RobotModel
                (mkUnicycleModel (last sim (pose_offset c))
                                 (last us (model_input (RobotModel c))) dt) c)))).
Proof.
  intros dt us sim. unfold generateTrajectory, for_int.
  unfold bind at 1. unfold modify at 1. unfold bind at 1. unfold get at 1.
  set (c0 := set_RobotModel (resetState (pose_offset c) (RobotModel c)) c).
  change (u_desired c0) with (u_desired c).
  pose proof (generateTrajectory_loop_state scheme
                (Z.to_nat (int_of_size (length (u_desired c)))) [] (u_desired c) c0
                eq_refl (int_of_size_le _)) as Hloop.
  cbn [length Z.of_nat] in Hloop.
  unfold bind at 1. rewrite Hloop. reflexivity.
Qed.

Lemma firstn_fits (c : LyapController) :
  fits_int (length (u_desired c)) ->
  firstn (Z.to_nat (int_of_size (length (u_desired c)))) (u_desired c) = u_desired c.
Proof.
  intros Hfit. rewrite int_of_size_fits, Nat2Z.id by assumption. apply firstn_all.
Qed.

Lemma simulate_length (scheme : R -> Vector3d -> Vector2d -> Vector3d)
    (dt : R) (us : list Vector2d) :
  forall p : Vector3d, length (simulate scheme dt p us) = length us.
Proof. induction us as [|u us IH]; intros p; cbn; [reflexivity|now rewrite IH]. Qed.

(** X10: [generateTrajectory] returns normally in every state and for every
    integration scheme: it never throws and never leaves defined behaviour.
    It keeps the input sequence, only appends to the pose sequence, leaves
    gains, clock, cached errors, offset and step time untouched, and ends
    with [finished] unset and [time_end] the step time times the pose
    count. *)
Theorem generateTrajectory_total :
  forall (scheme : R -> Vector3d -> Vector2d -> Vector3d) (c : LyapController),
    let g := generateTrajectory scheme c in
    fst g = Normal tt /\
    u_desired (snd g) = u_desired c /\
    grown_from c (snd g) /\
    finished (snd g) = false /\
    time_end (snd g) = computeMaxTime (snd g).
Proof.
  intros scheme c g. subst g. rewrite generateTrajectory_state. cbn.
  split; [reflexivity|]. split; [reflexivity|]. split; [|split; reflexivity].
  unfold grown_from. cbn. repeat split; try reflexivity.
  - exists []. now rewrite app_nil_r.
  - eexists. reflexivity.
Qed.

(** X11: [generateTrajectory] leaves the kinematic model at the end of what
    it generated: for an input count an [int] holds, the model's state
    afterwards is the last pose of the sequence when there is an input (the
    offset pose when there is none), its control input is the last stored
    input, and the first generated pose is one integration step away from
    the offset pose, which itself is not stored. *)
Theorem generateTrajectory_model :
  forall (scheme : R -> Vector3d -> Vector2d -> Vector3d) (c : LyapController)
         (d3 : Vector3d),
    fits_int (length (u_desired c)) ->
    let c' := snd (generateTrajectory scheme c) in
    getStepTime (RobotModel c') = getStepTime (RobotModel c) /\
    model_input (RobotModel c') = last (u_desired c) (model_input (RobotModel c)) /\
    (u_desired c = [] ->
     getState (RobotModel c') = pose_offset c /\ pose_desired c' = pose_desired c) /\
    (forall u0 rest, u_desired c = u0 :: rest ->
       getState (RobotModel c') = last (pose_desired c') d3 /\
       nth (length (pose_desired c)) (pose_desired c') d3
       = scheme (getStepTime (RobotModel c)) (pose_offset c) u0).
Proof.
  intros scheme c d3 Hfit c'. subst c'.
  rewrite generateTrajectory_state, firstn_fits by assumption. cbn.
  split; [reflexivity|]. split; [reflexivity|]. split.
  - intros Hu. rewrite Hu. cbn. now rewrite app_nil_r.
  - intros u0 rest Hu. rewrite Hu. cbn [simulate]. split.
    + now rewrite last_cons, last_app_cons.
    + rewrite app_nth2, Nat.sub_diag by lia. reflexivity.
Qed.

Lemma generateTrajectory_model_witness :
  let c := sample_controller true 0 [Vec2 1 0; Vec2 2 0] [] in
  let c' := snd (generateTrajectory (fun _ p u => Vec3 (v3_0 p + v2_0 u) 0 0) c) in
  getState (RobotModel c') = last (pose_desired c') Vector3d_Zero.
Proof.
  intros c c'.
  assert (Hfit : fits_int (length (u_desired c))) by (unfold fits_int, INT_MAX; cbn; lia).
  destruct (generateTrajectory_model (fun _ p u => Vec3 (v3_0 p + v2_0 u) 0 0) c
              Vector3d_Zero Hfit) as (_ & _ & _ & Hlast).
  destruct (Hlast (Vec2 1 0) [Vec2 2 0] eq_refl) as [H _]. exact H.
Defined.

(** X12: [generateTrajectory] is not idempotent: a second call integrates
    again from the offset pose and appends the same poses once more, so
    after two calls the pose sequence holds its former content followed by
    two copies of the simulated poses, while the input sequence is
    unchanged: each call adds as many poses as there are inputs, and
    [time_end] is the double product of the step time and the pose count. *)
Theorem generateTrajectory_twice :
  forall (scheme : R -> Vector3d -> Vector2d -> Vector3d) (c : LyapController),
    fits_int (length (u_desired c)) ->
    let sim := simulate scheme (getStepTime (RobotModel c)) (pose_offset c) (u_desired c) in
    let c2 := snd (generateTrajectory scheme (snd (generateTrajectory scheme c))) in
    pose_desired c2 = pose_desired c ++ sim ++ sim /\
    u_desired c2 = u_desired c /\
    length (pose_desired c2)
    = (length (pose_desired c) + 2 * length (u_desired c))%nat /\
    time_end c2
    = double_mul (getStepTime (RobotModel c)) (double_of_size (length (pose_desired c2))).
Proof.
  intros scheme c Hfit sim c2. subst c2 sim.
  rewrite (generateTrajectory_state scheme c), firstn_fits by assumption.
  cbn [snd].
  match goal with |- context [generateTrajectory scheme ?c1] =>
    assert (Hfit1 : fits_int (length (u_desired c1))) by exact Hfit;
    rewrite (generateTrajectory_state scheme c1), (firstn_fits c1 Hfit1)
  end.
  cbn. rewrite <- app_assoc.
  split; [reflexivity|]. split; [reflexivity|]. split; [|reflexivity].
  rewrite !length_app, !simulate_length. lia.
Qed.

Lemma generateTrajectory_twice_witness :
  let c := sample_controller true 0 [Vec2 1 0] [] in
  length (pose_desired (snd (generateTrajectory (fun _ p _ => p)
                               (snd (generateTrajectory (fun _ p _ => p) c)))))
  = (length (pose_desired c) + 2 * length (u_desired c))%nat.
Proof.
  intros c.
  assert (Hfit : fits_int (length (u_desired c))) by (unfold fits_int, INT_MAX; cbn; lia).
  destruct (generateTrajectory_twice (fun _ p _ => p) c Hfit) as (_ & _ & H & _).
  exact H.
Defined.





(** ** The shape of a copied trajectory *)

Lemma rototranslate_distance (offset p q : Vector3d) :
  distance (rototranslate offset p) (rototranslate offset q) = distance p q.
Proof.
  unfold distance, rototranslate. cbn.
  pose proof (sin2_cos2 (v3_2 offset)) as Hsc. unfold Rsqr in Hsc.
  set (s := sin (v3_2 offset)) in *. set (k := cos (v3_2 offset)) in *.
  set (a := v3_0 p - v3_0 q). set (b := v3_1 p - v3_1 q).
  f_equal.
  transitivity ((a * a + b * b) * (s * s + k * k)).
  - unfold a, b. ring.
  - rewrite Hsc. ring.
Qed.

Lemma skipn_length_app {A : Type} (l r : list A) : skipn (length l) (l ++ r) = r.
Proof. induction l as [|a l IH]; [reflexivity|exact IH]. Qed.

(** X14: [copyTrajectory] keeps the shape of the path: between any two of
    the poses it stores, the distance and the difference of headings are
    those between the supplied samples, whatever the offset pose. *)
Theorem copyTrajectory_rigid :
  forall (c : LyapController) (us : list Vector2d) (ps : list Vector3d)
         (i j : nat) (d : Vector3d),
    fits_int (length us) -> fits_int (length ps) ->
    (i < length ps)%nat -> (j < length ps)%nat ->
    let r := copyTrajectory (map v2_0 us) (map v2_1 us)
                            (map v3_0 ps) (map v3_1 ps) (map v3_2 ps) c in
    let stored := skipn (length (pose_desired c)) (pose_desired (snd r)) in
    length stored = length ps /\
    distance (nth i stored d) (nth j stored d) = distance (nth i ps d) (nth j ps d) /\
    v3_2 (nth i stored d) - v3_2 (nth j stored d)
    = v3_2 (nth i ps d) - v3_2 (nth j ps d).
Proof.
  intros c us ps i j d Hus Hps Hi Hj r stored. subst stored r.
  rewrite copyTrajectory_samples by assumption.
  cbn [snd pose_desired set_finished set_time_end set_pose_desired].
  rewrite skipn_length_app.
  assert (Hnth : forall n, (n < length ps)%nat ->
            nth n (map (rototranslate (pose_offset c)) ps) d
            = rototranslate (pose_offset c) (nth n ps d)).
  { intros n Hn.
    rewrite (nth_indep _ d (rototranslate (pose_offset c) d))
      by (rewrite length_map; exact Hn).
    apply map_nth. }
  rewrite !Hnth by assumption.
  split; [apply length_map|]. split; [apply rototranslate_distance|].
  unfold rototranslate. cbn. ring.
Qed.

Lemma copyTrajectory_rigid_witness :
  let c := mkLyapController 1 1 0 0 0 0 0 sample_model true [] [] (Vec3 5 6 1) in
  let r := copyTrajectory (map v2_0 [Vec2 1 0; Vec2 1 0]) (map v2_1 [Vec2 1 0; Vec2 1 0])
             (map v3_0 [Vec3 0 0 0; Vec3 3 4 0]) (map v3_1 [Vec3 0 0 0; Vec3 3 4 0])
             (map v3_2 [Vec3 0 0 0; Vec3 3 4 0]) c in
  let stored := skipn (length (pose_desired c)) (pose_desired (snd r)) in
  distance (nth 0 stored Vector3d_Zero) (nth 1 stored Vector3d_Zero)
  = distance (Vec3 0 0 0) (Vec3 3 4 0).
Proof.
  intros c r stored.
  assert (H2 : fits_int 2) by (unfold fits_int, INT_MAX; lia).
  destruct (copyTrajectory_rigid c [Vec2 1 0; Vec2 1 0] [Vec3 0 0 0; Vec3 3 4 0]
              0 1 Vector3d_Zero H2 H2) as (_ & Hd & _).
  - cbn. lia.
  - cbn. lia.
  - exact Hd.
Defined.

(** ** Arrays of any lengths *)

Lemma vector_at_app_same {A B : Type} (done0 : list B) (done rest : list A) (a : A) :
  length done0 = length done ->
  vector_at (done ++ a :: rest) (Z.of_nat (length done0)) = Normal a.
Proof. intros H. rewrite H. apply vector_at_app. Qed.

Lemma vector_at_end {A B : Type} (done0 : list B) (done : list A) :
  length done0 = length done ->
  vector_at (done ++ []) (Z.of_nat (length done0)) = Throw out_of_range.
Proof.
  intros H. apply vector_at_beyond. rewrite app_nil_r, H. lia.
Qed.

(** The first loop of [copyTrajectory] on any two arrays. *)
Lemma copyTrajectory_inputs_arrays (vrest : list R) :
  forall (orest vdone odone : list R) (c : LyapController),
    length vdone = length odone ->
    for_loop (length vrest) (Z.of_nat (length vdone))
      (fun i =>
         v_i <- const_call (fun _ => vector_at (vdone ++ vrest) i) ;;
         omega_i <- const_call (fun _ => vector_at (odone ++ orest) i) ;;
         addToInputDesired v_i omega_i)%cpp c
    = (if (length orest <? length vrest)%nat then Throw out_of_range else Normal tt,
       set_u_desired (u_desired c ++ zip_inputs vrest orest) c).
Proof.
  induction vrest as [|a vrest IH]; intros orest vdone odone c Hlen.
  - cbn. unfold ret. now rewrite app_nil_r, set_u_desired_same.
  - cbn [length for_loop]. unfold bind at 1. unfold bind at 1. unfold const_call at 1.
    rewrite vector_at_app. unfold bind at 1. unfold const_call at 1.
    destruct orest as [|b orest].
    + rewrite (vector_at_end vdone odone Hlen). cbn.
      now rewrite app_nil_r, set_u_desired_same.
    + rewrite (vector_at_app_same vdone odone orest b Hlen).
      unfold addToInputDesired at 1, modify at 1.
      replace (vdone ++ a :: vrest) with ((vdone ++ [a]) ++ vrest)
        by (rewrite <- app_assoc; reflexivity).
      replace (odone ++ b :: orest) with ((odone ++ [b]) ++ orest)
        by (rewrite <- app_assoc; reflexivity).
      replace (Z.of_nat (length vdone) + 1)%Z with (Z.of_nat (length (vdone ++ [a])))
        by (rewrite length_app; cbn; lia).
      rewrite IH by (rewrite !length_app; cbn; lia).
      unfold set_u_desired, zip_inputs. cbn.
      now rewrite <- app_assoc.
Qed.

(** The second loop of [copyTrajectory] on any three arrays. *)
Lemma copyTrajectory_poses_arrays (xrest : list R) :
  forall (yrest trest xdone ydone tdone : list R) (c : LyapController),
    length xdone = length ydone -> length xdone = length tdone ->
    for_loop (length xrest) (Z.of_nat (length xdone))
      (fun i =>
         c <- get ;;
         let theta_offset := v3_2 (pose_offset c) in
         x_i <- const_call (fun _ => vector_at (xdone ++ xrest) i) ;;
         y_i <- const_call (fun _ => vector_at (ydone ++ yrest) i) ;;
         let x_with_offset :=
           v3_0 (pose_offset c) + (cos theta_offset * x_i - sin theta_offset * y_i) in
         let y_with_offset :=
           v3_1 (pose_offset c) + (sin theta_offset * x_i + cos theta_offset * y_i) in
         theta_i <- const_call (fun _ => vector_at (tdone ++ trest) i) ;;
         let theta_with_offset := theta_offset + theta_i in
         addStateDesired (Vec3 x_with_offset y_with_offset theta_with_offset))%cpp c
    = (if ((length yrest <? length xrest) || (length trest <? length xrest))%nat
       then Throw out_of_range else Normal tt,
       set_pose_desired
         (pose_desired c
          ++ map (rototranslate (pose_offset c)) (zip_poses xrest yrest trest)) c).
Proof.
  induction xrest as [|a xrest IH]; intros yrest trest xdone ydone tdone c Hy Ht.
  - cbn. unfold ret. now rewrite app_nil_r, set_pose_desired_same.
  - cbn [length for_loop]. unfold bind at 1. unfold bind at 1. unfold get at 1.
    cbn zeta. unfold bind at 1. unfold const_call at 1.
    rewrite vector_at_app. unfold bind at 1. unfold const_call at 1.
    destruct yrest as [|b yrest].
    { rewrite (vector_at_end xdone ydone Hy). cbn.
      now rewrite app_nil_r, set_pose_desired_same. }
    rewrite (vector_at_app_same xdone ydone yrest b Hy).
    unfold bind at 1. unfold const_call at 1.
    destruct trest as [|d trest].
    { rewrite (vector_at_end xdone tdone Ht).
      replace ((length (b :: yrest) <? S (length xrest))%nat || (length (@nil R) <? S (length xrest))%nat)
        with true by (cbn [length]; rewrite orb_true_r; reflexivity).
      unfold zip_poses. cbn [combine map].
      now rewrite app_nil_r, set_pose_desired_same. }
    rewrite (vector_at_app_same xdone tdone trest d Ht).
    unfold addStateDesired at 1, modify at 1.
    pose proof (rototranslate_code (pose_offset c) (Vec3 a b d)) as Hrot.
    cbn [v3_0 v3_1 v3_2] in Hrot. rewrite Hrot.
    replace (xdone ++ a :: xrest) with ((xdone ++ [a]) ++ xrest)
      by (rewrite <- app_assoc; reflexivity).
    replace (ydone ++ b :: yrest) with ((ydone ++ [b]) ++ yrest)
      by (rewrite <- app_assoc; reflexivity).
    replace (tdone ++ d :: trest) with ((tdone ++ [d]) ++ trest)
      by (rewrite <- app_assoc; reflexivity).
    replace (Z.of_nat (length xdone) + 1)%Z with (Z.of_nat (length (xdone ++ [a])))
      by (rewrite length_app; cbn; lia).
    rewrite IH by (rewrite !length_app; cbn; lia).
    unfold set_pose_desired, zip_poses. cbn.
    now rewrite <- app_assoc.
Qed.

(** X15: what [copyTrajectory] does on arrays of any lengths (the counts of
    [v] and [x] being ones an [int] holds).  The inputs (v_i, omega_i) are
    appended up to the shorter of [v] and [omega]; with [omega] shorter than
    [v] the call then throws [out_of_range], no pose having been read.
    Otherwise the poses are appended, roto-translated, up to the shortest of
    [x], [y], [theta]; with [y] or [theta] shorter than [x] the call then
    throws [out_of_range].  Only when it throws neither does it set
    [time_end] and unset [finished]; entries of [omega], [y], [theta] past
    the length of [v], [x] are ignored. *)
Theorem copyTrajectory_arrays :
  forall (v omega x y theta : list R) (c : LyapController),
    fits_int (length v) -> fits_int (length x) ->
    let c1 := set_u_desired (u_desired c ++ zip_inputs v omega) c in
    let c2 := set_pose_desired
                (pose_desired c
                 ++ map (rototranslate (pose_offset c)) (zip_poses x y theta)) c1 in
    copyTrajectory v omega x y theta c
    = if (length omega <? length v)%nat then (Throw out_of_range, c1)
      else if ((length y <? length x) || (length theta <? length x))%nat
           then (Throw out_of_range, c2)
           else (Normal tt,
                 set_finished false
                   (set_time_end
                      (double_mul (getStepTime (RobotModel c))
                                  (double_of_size (length (pose_desired c2))))
                      c2)).
Proof.
  intros v omega x y theta c Hv Hx c1 c2. unfold copyTrajectory, for_int.
  rewrite !int_of_size_fits, !Nat2Z.id by assumption.
  pose proof (copyTrajectory_inputs_arrays v omega [] [] c eq_refl) as Hin.
  pose proof (copyTrajectory_poses_arrays x y theta [] [] [] c1 eq_refl eq_refl) as Hpo.
  cbn [length app Z.of_nat] in Hin, Hpo.
  unfold bind at 1. rewrite Hin. fold c1.
  destruct (length omega <? length v)%nat; [reflexivity|].
  unfold bind at 1. rewrite Hpo.
  change (pose_offset c1) with (pose_offset c). change (pose_desired c1) with (pose_desired c).
  fold c2.
  destruct ((length y <? length x) || (length theta <? length x))%nat; reflexivity.
Qed.

Lemma copyTrajectory_arrays_witness :
  let c := sample_controller true 0 [] [] in
  copyTrajectory [1; 2] [0; 0; 9] [3; 4] [5] [6; 7] c
  = (Throw out_of_range,
     set_pose_desired [rototranslate Vector3d_Zero (Vec3 3 5 6)]
       (set_u_desired [Vec2 1 0; Vec2 2 0] c)).
Proof.
  intros c.
  assert (H2 : fits_int 2) by (unfold fits_int, INT_MAX; lia).
  exact (copyTrajectory_arrays [1; 2] [0; 0; 9] [3; 4] [5] [6; 7] c H2 H2).
Defined.

(** ** Steps at and after the end *)

Lemma set_finished_same (c : LyapController) : set_finished (finished c) c = c.
Proof. now destruct c. Qed.

(** X16: on a finished controller with a loaded trajectory [step] is a
    no-op that emits zero: it returns normally, sets the output to zero,
    writes one line to the console and leaves every member of the
    controller as it was, so any number of further steps does the same. *)
Theorem step_finished_noop :
  forall (c : LyapController) (pose : Vector3d) (u : Vector2d) (out : list string),
    u_desired c <> [] -> pose_desired c <> [] -> finished c = true ->
    step pose (mkFrame c u out)
    = (Normal tt, mkFrame c Vector2d_Zero (out ++ ["Trajectory control finished"%string])).
Proof.
  intros c pose u out Hu Hp Hf. unfold step. unfold bind at 1.
  rewrite computeLaw_finished by assumption.
  unfold endReached. run_monad.
  destruct (Rge_dec (current_time c) (computeMaxTime c)); cbn.
  - rewrite <- Hf at 1. now rewrite set_finished_same.
  - reflexivity.
Qed.

Lemma step_finished_noop_witness :
  let c := sample_controller true 9 [Vec2 1 0] [Vector3d_Zero] in
  step (Vec3 1 2 3) (mkFrame c (Vec2 5 5) [])
  = (Normal tt, mkFrame c Vector2d_Zero ["Trajectory control finished"%string]).
Proof.
  intros c.
  apply (step_finished_noop c (Vec3 1 2 3) (Vec2 5 5) []).
  - discriminate.
  - discriminate.
  - reflexivity.
Defined.



(** ** The setup report *)

Lemma string_append_assoc (a b c : string) :
  ((a ++ b) ++ c = a ++ (b ++ c))%string.
Proof. induction a as [|ch a IH]; cbn; [reflexivity|now rewrite IH]. Qed.

Lemma string_append_empty (a : string) : (a ++ "" = a)%string.
Proof. induction a as [|ch a IH]; cbn; [reflexivity|now rewrite IH]. Qed.

Lemma print_row_outcome (show3 : R -> string) (c : LyapController) (i : Z) :
  (exists row, print_row show3 c i = Normal row) \/
  print_row show3 c i = Throw out_of_range.
Proof.
  unfold print_row.
  destruct (vector_at_outcome (pose_desired c) i) as [[p Hp]|Hp]; rewrite Hp; cbn [obind];
    [|now right].
  destruct (vector_at_outcome (u_desired c) i) as [[u Hu]|Hu]; rewrite Hu; cbn [obind];
    [left; eauto|now right].
Qed.


Lemma print_rows_throw (MAX DEC : Z) (show3 : R -> string) (c : LyapController)
    (fuel : nat) :
  forall (i : Z) (oss : string) (e : exception),
    print_rows MAX DEC show3 c fuel i oss = Some (Throw e) -> e = out_of_range.
Proof.
  induction fuel as [|k IH]; intros i oss e H; [discriminate|].
  cbn [print_rows] in H.
  destruct ((i <? int_of_size (length (pose_desired c))) && (i <? MAX))%Z; [|discriminate].
  destruct (print_row_outcome show3 c i) as [[row Hrow]|Hrow]; rewrite Hrow in H.
  - destruct ((INT_MIN <=? i + DEC) && (i + DEC <=? INT_MAX))%Z; [|discriminate].
    eapply IH. exact H.
  - congruence.
Qed.

(** X18: [stringSetupInfo] cannot be used before a trajectory is loaded:
    with no pose stored the loop is skipped and the last line reads
    [pose_desired.at(-1)], so the call throws [out_of_range] whatever the
    two printing constants are. *)
Theorem stringSetupInfo_empty :
  forall (MAX DEC : Z) (show show3 : R -> string) (fuel : nat) (c : LyapController),
    pose_desired c = [] ->
    stringSetupInfo MAX DEC show show3 (S fuel) c = Some (Throw out_of_range).
Proof.
  intros MAX DEC show show3 fuel c Hp.
  unfold stringSetupInfo, print_row. cbn [print_rows]. rewrite Hp. reflexivity.
Qed.

Lemma stringSetupInfo_empty_witness :
  stringSetupInfo 100 10 (fun _ => "?"%string) (fun _ => "?"%string) 1
    (LyapController_ctor 1 1 1 Vector3d_Zero)
  = Some (Throw out_of_range).
Proof.
  apply (stringSetupInfo_empty 100 10 (fun _ => "?"%string) (fun _ => "?"%string) 0
           (LyapController_ctor 1 1 1 Vector3d_Zero)).
  reflexivity.
Defined.

(** X19: with fewer inputs than poses (the pose count being one an [int]
    holds) [stringSetupInfo] never returns a string: its last line reads
    the input at the last pose index, past the end of the inputs, so
    whatever the printing constants and however long the loop runs, the
    call does not return normally, and if it throws it throws
    [out_of_range]. *)
Theorem stringSetupInfo_short_inputs :
  forall (MAX DEC : Z) (show show3 : R -> string) (fuel : nat) (c : LyapController),
    fits_int (length (pose_desired c)) ->
    (length (u_desired c) < length (pose_desired c))%nat ->
    (forall s : string, stringSetupInfo MAX DEC show show3 fuel c <> Some (Normal s)) /\
    (forall e : exception,
       stringSetupInfo MAX DEC show show3 fuel c = Some (Throw e) -> e = out_of_range).
Proof.
  intros MAX DEC show show3 fuel c Hfit Hlen.
  assert (Hlast : print_row show3 c (Z.of_nat (length (pose_desired c)) - 1)
                  = Throw out_of_range).
  { unfold print_row.
    rewrite (vector_at_nth _ _ Vector3d_Zero) by lia. cbn [obind].
    rewrite vector_at_beyond by lia. reflexivity. }
  unfold stringSetupInfo.
  destruct (print_rows MAX DEC show3 c fuel 0 (setup_header show c))
    as [[oss|e|]|] eqn:Hrows.
  - rewrite int_of_size_fits, int_pred_size by assumption. cbn [obind].
    rewrite Hlast. cbn [obind]. split; [discriminate|congruence].
  - split; [discriminate|]. intros e' He. inversion He; subst e'.
    eapply print_rows_throw. exact Hrows.
  - split; discriminate.
  - split; discriminate.
Qed.

Lemma stringSetupInfo_short_inputs_witness :
  let c := sample_controller false 0 [Vec2 1 0] [Vector3d_Zero; Vec3 1 0 0] in
  stringSetupInfo 100 1 (fun _ => "?"%string) (fun _ => "?"%string) 5 c
  <> Some (Normal "report"%string).
Proof.
  intros c.
  apply (stringSetupInfo_short_inputs 100 1 (fun _ => "?"%string) (fun _ => "?"%string) 5 c).
  - unfold fits_int, INT_MAX. cbn. lia.
  - cbn. lia.
Defined.

Lemma print_row_text (show3 : R -> string) (c : LyapController) (i : Z) :
  (0 <= i < Z.of_nat (length (pose_desired c)))%Z ->
  (i < Z.of_nat (length (u_desired c)))%Z ->
  print_row show3 c i
  = Normal (row_text show3 (nth (Z.to_nat i) (pose_desired c) Vector3d_Zero)
                           (nth (Z.to_nat i) (u_desired c) Vector2d_Zero)).
Proof.
  intros Hp Hu. unfold print_row.
  rewrite (vector_at_nth _ _ Vector3d_Zero Hp). cbn [obind].
  rewrite (vector_at_nth _ _ Vector2d_Zero) by lia. reflexivity.
Qed.

Lemma row_count_step (m stride i : Z) :
  (1 <= stride)%Z -> (i < m)%Z ->
  Z.to_nat ((m - i + stride - 1) / stride)
  = S (Z.to_nat ((m - (i + stride) + stride - 1) / stride)).
Proof.
  intros Hs Hi.
  replace (m - i + stride - 1)%Z with (m - (i + stride) + stride - 1 + 1 * stride)%Z by lia.
  rewrite Z.div_add by lia.
  assert (H : (0 <= (m - (i + stride) + stride - 1) / stride)%Z)
    by (apply Z.div_pos; lia).
  lia.
Qed.

Lemma row_count_end (m stride i : Z) :
  (1 <= stride)%Z -> (m <= i)%Z -> Z.to_nat ((m - i + stride - 1) / stride) = 0%nat.
Proof.
  intros Hs Hi.
  assert (H : ((m - i + stride - 1) / stride <= 0)%Z).
  { destruct (Z_lt_le_dec (m - i + stride - 1) 0) as [L|G].
    - assert ((m - i + stride - 1) / stride < 0)%Z by (apply Z.div_lt_upper_bound; lia). lia.
    - rewrite Z.div_small by lia. lia. }
  lia.
Qed.

(** The loop of [stringSetupInfo] from index [i] on writes the lines of the
    samples [i], [i + DEC], ... below both the pose count and [MAX]. *)
Lemma print_rows_table (MAX DEC : Z) (show3 : R -> string) (c : LyapController)
    (fuel : nat) :
  (1 <= DEC)%Z ->
  fits_int (length (pose_desired c)) ->
  (length (pose_desired c) <= length (u_desired c))%nat ->
  (Z.of_nat (length (pose_desired c)) - 1 + DEC <= INT_MAX)%Z ->
  forall (i : Z) (oss : string),
    (0 <= i)%Z ->
    (Z.max 0 (Z.of_nat (length (pose_desired c)) - i) < Z.of_nat fuel)%Z ->
    print_rows MAX DEC show3 c fuel i oss
    = Some (Normal (oss ++ table_rows show3 c DEC
                             (Z.to_nat ((Z.min (Z.of_nat (length (pose_desired c))) MAX
                                         - i + DEC - 1) / DEC)) i)%string).
Proof.
  intros Hdec Hfit Hlen Hover.
  induction fuel as [|k IH]; intros i oss Hi Hfuel.
  - exfalso. cbn in Hfuel. lia.
  - cbn [print_rows]. rewrite int_of_size_fits by assumption.
    destruct ((i <? Z.of_nat (length (pose_desired c))) && (i <? MAX))%Z eqn:Hcond.
    + apply andb_true_iff in Hcond. destruct Hcond as [Hin Hmax].
      apply Z.ltb_lt in Hin. apply Z.ltb_lt in Hmax.
      rewrite print_row_text by lia.
      assert (Hrange : ((INT_MIN <=? i + DEC) && (i + DEC <=? INT_MAX))%Z = true).
      { apply andb_true_iff. split; [apply Z.leb_le; unfold INT_MIN; lia|apply Z.leb_le; lia]. }
      rewrite Hrange, IH by lia.
      rewrite (row_count_step _ DEC i) by lia.
      cbn [table_rows]. now rewrite string_append_assoc.
    + apply andb_false_iff in Hcond.
      rewrite row_count_end; [cbn [table_rows]; now rewrite string_append_empty|lia|].
      destruct Hcond as [H|H]; apply Z.ltb_ge in H; lia.
Qed.

(** X20: with at least one pose, at least as many inputs as poses, a
    positive stride [DECIMATION_PRINT] and a pose count that, with the
    stride added, stays an [int], [stringSetupInfo] returns this string:
    the header; the lines of the samples 0, stride, 2 stride, ... below both
    the pose count n and [MAX_ITER_TO_PRINT], each the five values of the
    sample at precision 3, so ceil (min (n, MAX_ITER_TO_PRINT) / stride)
    lines, none when [MAX_ITER_TO_PRINT] <= 0; the rule; and the line of the
    last sample, which is there again when the table holds it already.  The
    loop ends within pose count + 1 tests. *)
Theorem stringSetupInfo_returns :
  forall (MAX DEC : Z) (show show3 : R -> string) (fuel : nat) (c : LyapController),
    (1 <= DEC)%Z ->
    (1 <= length (pose_desired c))%nat ->
    (length (pose_desired c) <= length (u_desired c))%nat ->
    (Z.of_nat (length (pose_desired c)) - 1 + DEC <= INT_MAX)%Z ->
    (length (pose_desired c) < fuel)%nat ->
    let n := length (pose_desired c) in
    stringSetupInfo MAX DEC show show3 fuel c
    = Some (Normal (setup_header show c
                    ++ table_rows show3 c DEC (row_count (Z.of_nat n) MAX DEC) 0
                    ++ setup_rule
                    ++ row_text show3 (nth (n - 1) (pose_desired c) Vector3d_Zero)
                                      (nth (n - 1) (u_desired c) Vector2d_Zero))%string) /\
    (Z.of_nat (row_count (Z.of_nat n) MAX DEC) * DEC < Z.max 0 (Z.min (Z.of_nat n) MAX) + DEC)%Z /\
    (Z.max 0 (Z.min (Z.of_nat n) MAX) <= Z.of_nat (row_count (Z.of_nat n) MAX DEC) * DEC)%Z.
Proof.
  intros MAX DEC show show3 fuel c Hdec Hn Hlen Hover Hfuel n.
  assert (Hfit : fits_int (length (pose_desired c))) by (unfold fits_int; lia).
  split; [|].
  - unfold stringSetupInfo.
    rewrite (print_rows_table MAX DEC show3 c fuel Hdec Hfit Hlen Hover 0) by lia.
    rewrite int_of_size_fits, int_pred_size by assumption. cbn [obind].
    rewrite print_row_text by lia. cbn [obind].
    replace (Z.to_nat (Z.of_nat (length (pose_desired c)) - 1)) with (n - 1)%nat
      by (unfold n; lia).
    unfold row_count. fold n.
    replace (Z.min (Z.of_nat n) MAX - 0 + DEC - 1)%Z
      with (Z.min (Z.of_nat n) MAX + DEC - 1)%Z by lia.
    now rewrite string_append_assoc.
  - unfold row_count. set (m := Z.min (Z.of_nat n) MAX).
    destruct (Z_lt_le_dec m 1) as [L|G].
    + replace (Z.to_nat ((m + DEC - 1) / DEC)) with 0%nat.
      * lia.
      * symmetry. replace (m + DEC - 1)%Z with (m - 0 + DEC - 1)%Z by lia.
        apply row_count_end; lia.
    + assert (H0 : (0 <= (m + DEC - 1) / DEC)%Z) by (apply Z.div_pos; lia).
      rewrite Z2Nat.id by exact H0.
      pose proof (Z.mul_div_le (m + DEC - 1) DEC ltac:(lia)) as Hle.
      pose proof (Z.mul_succ_div_gt (m + DEC - 1) DEC ltac:(lia)) as Hgt.
      split; lia.
Qed.

Lemma stringSetupInfo_returns_witness :
  let c := sample_controller false 0 [Vec2 1 0; Vec2 2 0; Vec2 3 0]
             [Vector3d_Zero; Vec3 1 0 0; Vec3 2 0 0] in
  let show3 := fun _ : R => "?"%string in
  stringSetupInfo 100 2 show3 show3 4 c
  = Some (Normal (setup_header show3 c
                  ++ row_text show3 Vector3d_Zero (Vec2 1 0)
                  ++ row_text show3 (Vec3 2 0 0) (Vec2 3 0)
                  ++ setup_rule
                  ++ row_text show3 (Vec3 2 0 0) (Vec2 3 0))%string).
Proof.
  intros c show3.
  destruct (stringSetupInfo_returns 100 2 show3 show3 4 c) as [H _].
  - lia.
  - cbn. lia.
  - cbn. lia.
  - unfold INT_MAX. cbn. lia.
  - cbn. lia.
  - rewrite H. reflexivity.
Defined.
